(** * Talos machined: runtime sequences and image retry policies

    A shallow embedding of

    - [internal/app/machined/pkg/runtime/sequencer.go]: the [Sequence]
      enumeration, its string table, [ParseSequence] and the [Sequencer]
      interface;
    - the [image] package ([Pull] and [Import] with their retry policies);
    - the loop of trustd's [main] over the certificate SANs;
    - the client [config] package ([Context.upgrade], [Config.upgrade],
      [Config.Merge]), with contexts held by pointer in a store;
    - the [list] command of talosctl, as the sequence of its writes;
    - the qemu provisioner ([checkPartitions], the command line of
      [launchVM], [withCNI] and its deferred calls, [GenOptions]).

    Go's [int] is modelled as [Z], Go strings as [string], a function that
    may panic returns a [result], and a Go [error] value is a term of the
    inductive [error] below ([nil] is [None] in an [option error]). *)

From Stdlib Require Import ZArith String Ascii List Bool Lia.
From Stdlib Require Import DecimalString.
From stdpp Require base option list strings gmap fin_maps.
Import ListNotations.

Open Scope string_scope.
Open Scope Z_scope.

(** ** Go values shared by both packages *)

Module Go.

(** Run-time panics raised by the embedded code. *)
Inductive panic : Type :=
| IndexOutOfRange (index length : Z).

(** The outcome of an expression that may panic. *)
Inductive result (A : Type) : Type :=
| Ok (a : A)
| Panic (p : panic).

Arguments Ok {A} a.
Arguments Panic {A} p.

(** [a[i]] on an array or slice: the index is checked against [0 <= i < len(a)]
    and the access panics when the check fails. *)
Definition index {A : Type} (a : list A) (i : Z) : result A :=
  let len := Z.of_nat (length a) in
  if (i <? 0) || (len <=? i) then Panic (IndexOutOfRange i len)
  else match nth_error a (Z.to_nat i) with
       | Some x => Ok x
       | None => Panic (IndexOutOfRange i len)
       end.

(** Package-level error variables, compared by identity. *)
Inductive sentinel : Type :=
| errdefs_ErrNotFound   (* containerd errdefs.ErrNotFound *)
| os_ErrNotExist.       (* os.ErrNotExist *)

Definition sentinel_eqb (a b : sentinel) : bool :=
  match a, b with
  | errdefs_ErrNotFound, errdefs_ErrNotFound => true
  | os_ErrNotExist, os_ErrNotExist => true
  | _, _ => false
  end.

(** Non-nil values of Go's [error] interface, by dynamic type.  The message of
    a [fmt.Errorf] value is kept as its format and operands. *)
Inductive error : Type :=
| Sentinel (v : sentinel)
| New (msg : string)                                   (* errors.New(msg), a fresh value *)
| Errno (n : Z)                                        (* syscall.Errno *)
| PathError (op path : string) (err : error)           (* *os.PathError *)
| Errorf (format : string) (args : list string)        (* fmt.Errorf without %w *)
| ErrorfW (format : string) (args : list string) (err : error)
                                                       (* fmt.Errorf, last verb %w *)
| expectedError (err : error)                          (* retry.expectedError{err} *)
| unexpectedError (err : error).                       (* retry.unexpectedError{err} *)

(** [syscall.ENOENT] on Linux. *)
Definition ENOENT : Z := 2.

(** [errors.Is(err, target)] for a sentinel target: walk the [Unwrap] chain
    comparing each link with the target.  The chain goes through [fmt]'s
    wrapping error and [*os.PathError]; an errno answers through its [Is]
    method. *)
Fixpoint errors_Is (err : error) (target : sentinel) : bool :=
  match err with
  | Sentinel v => sentinel_eqb v target
  | ErrorfW _ _ inner => errors_Is inner target
  | PathError _ _ inner => errors_Is inner target
  | Errno n =>
      match target with
      | os_ErrNotExist => n =? ENOENT          (* Errno.Is *)
      | _ => false
      end
  | _ => false
  end.

(** [errdefs.IsNotFound]. *)
Definition errdefs_IsNotFound (err : error) : bool :=
  errors_Is err errdefs_ErrNotFound.

(** [os.underlyingError]: unwraps [*PathError] only (of the types modelled
    here), never a general [Unwrap] chain. *)
Definition underlyingError (err : error) : error :=
  match err with
  | PathError _ _ inner => inner
  | _ => err
  end.

(** [os.IsNotExist]: the underlying error is [os.ErrNotExist] itself or the
    errno [ENOENT]. *)
Definition os_IsNotExist (err : error) : bool :=
  match underlyingError err with
  | Sentinel os_ErrNotExist => true
  | Errno n => n =? ENOENT
  | _ => false
  end.

(** [time.Duration]: a count of nanoseconds (an [int64]; every duration below
    is far from its bounds). *)
Definition Duration : Type := Z.

Definition Nanosecond : Duration := 1.
Definition Microsecond : Duration := 1000 * Nanosecond.
Definition Millisecond : Duration := 1000 * Microsecond.
Definition Second : Duration := 1000 * Millisecond.
Definition Minute : Duration := 60 * Second.

End Go.

Import Go.

(** ** Package runtime: sequencer.go *)

Module runtime.

(** [type Sequence int] *)
Definition Sequence : Type := Z.

(** The [iota] block of sequence constants. *)
Definition SequenceApplyConfiguration : Sequence := 0.
Definition SequenceBoot : Sequence := 1.
Definition SequenceBootstrap : Sequence := 2.
Definition SequenceInitialize : Sequence := 3.
Definition SequenceInstall : Sequence := 4.
Definition SequenceShutdown : Sequence := 5.
Definition SequenceUpgrade : Sequence := 6.
Definition SequenceReset : Sequence := 7.
Definition SequenceReboot : Sequence := 8.
Definition SequenceRecover : Sequence := 9.
Definition SequenceNoop : Sequence := 10.

(** The named constants, in declaration order. *)
Definition Sequences : list Sequence :=
  [SequenceApplyConfiguration; SequenceBoot; SequenceBootstrap;
   SequenceInitialize; SequenceInstall; SequenceShutdown; SequenceUpgrade;
   SequenceReset; SequenceReboot; SequenceRecover; SequenceNoop].

(** The string constants. *)
Definition applyConfiguration : string := "applyConfiguration".
Definition boot : string := "boot".
Definition bootstrap : string := "bootstrap".
Definition initialize : string := "initialize".
Definition install : string := "install".
Definition shutdown : string := "shutdown".
Definition upgrade : string := "upgrade".
Definition reset : string := "reset".
Definition reboot : string := "reboot".
Definition recover : string := "recover".
Definition noop : string := "noop".

(** The array literal of [Sequence.String]. *)
Definition identifiers : list string :=
  [applyConfiguration; boot; bootstrap; initialize; install; shutdown;
   upgrade; reset; reboot; recover; noop].

(** [func (s Sequence) String() string]: a positional lookup in the array
    literal, which panics when [s] is not a valid index. *)
Definition Sequence_String (s : Sequence) : result string :=
  index identifiers s.

(** The error built on the default branch of [ParseSequence]. *)
Definition unknown_sequence (s : string) : error :=
  Errorf "unknown runtime sequence: %q" [s].

(** [func ParseSequence(s string) (seq Sequence, err error)]: the named
    result [seq] starts at the zero value and is returned unchanged on the
    default branch. *)
Definition ParseSequence (s : string) : Sequence * option error :=
  let seq : Sequence := 0 in
  if (s =? applyConfiguration)%string then (SequenceApplyConfiguration, None)
  else if (s =? boot)%string then (SequenceBoot, None)
  else if (s =? bootstrap)%string then (SequenceBootstrap, None)
  else if (s =? initialize)%string then (SequenceInitialize, None)
  else if (s =? install)%string then (SequenceInstall, None)
  else if (s =? shutdown)%string then (SequenceShutdown, None)
  else if (s =? upgrade)%string then (SequenceUpgrade, None)
  else if (s =? reset)%string then (SequenceReset, None)
  else if (s =? reboot)%string then (SequenceReboot, None)
  else if (s =? recover)%string then (SequenceRecover, None)
  else if (s =? noop)%string then (SequenceNoop, None)
  else (seq, Some (unknown_sequence s)).

(** Membership in the closed enumeration. *)
Definition valid (s : Sequence) : Prop :=
  SequenceApplyConfiguration <= s <= SequenceNoop.

(** The ways a [Sequence] value is normally built: a named constant or a
    successful parse. *)
Inductive constructed : Sequence -> Prop :=
| constructed_constant (seq : Sequence) :
    In seq Sequences -> constructed seq
| constructed_parsed (s : string) (seq : Sequence) :
    ParseSequence s = (seq, None) -> constructed seq.

(** *** Character classes used to talk about the identifiers *)

Definition is_lower (c : ascii) : bool :=
  let n := nat_of_ascii c in (97 <=? n)%nat && (n <=? 122)%nat.

Definition is_upper (c : ascii) : bool :=
  let n := nat_of_ascii c in (65 <=? n)%nat && (n <=? 90)%nat.

Definition to_lower_ascii (c : ascii) : ascii :=
  if is_upper c then ascii_of_nat (nat_of_ascii c + 32) else c.

(** [strings.ToLower] on ASCII text. *)
Fixpoint ToLower (s : string) : string :=
  match s with
  | EmptyString => EmptyString
  | String c r => String (to_lower_ascii c) (ToLower r)
  end.

Definition is_space (c : ascii) : bool :=
  let n := nat_of_ascii c in (n =? 32)%nat || ((9 <=? n)%nat && (n <=? 13)%nat).

Fixpoint TrimLeft (s : string) : string :=
  match s with
  | String c r => if is_space c then TrimLeft r else s
  | EmptyString => EmptyString
  end.

(** Every character is a lowercase ASCII letter. *)
Definition all_lower (s : string) : bool :=
  forallb is_lower (list_ascii_of_string s).

(** Every character is an ASCII letter. *)
Definition all_letters (s : string) : bool :=
  forallb (fun c => is_lower c || is_upper c) (list_ascii_of_string s).

(** *** The [Sequencer] interface *)

(** The types a method signature of the interface mentions. *)
Inductive gotype : Type :=
| TRuntime                         (* Runtime *)
| TPhases                          (* []Phase *)
| TRequest (pkg name : string)     (* *pkg.name *)
| TError.                          (* error *)

Definition gotype_eqb (a b : gotype) : bool :=
  match a, b with
  | TRuntime, TRuntime => true
  | TPhases, TPhases => true
  | TRequest p n, TRequest q m => (p =? q)%string && (n =? m)%string
  | TError, TError => true
  | _, _ => false
  end.

Record method : Type := {
  method_name : string;
  method_params : list gotype;
  method_results : list gotype
}.

(** The method set of [type Sequencer interface], in declaration order. *)
Definition Sequencer_methods : list method :=
  [ {| method_name := "ApplyConfiguration";
       method_params := [TRuntime; TRequest "machine" "ApplyConfigurationRequest"];
       method_results := [TPhases] |};
    {| method_name := "Boot"; method_params := [TRuntime]; method_results := [TPhases] |};
    {| method_name := "Bootstrap"; method_params := [TRuntime]; method_results := [TPhases] |};
    {| method_name := "Initialize"; method_params := [TRuntime]; method_results := [TPhases] |};
    {| method_name := "Install"; method_params := [TRuntime]; method_results := [TPhases] |};
    {| method_name := "Reboot"; method_params := [TRuntime]; method_results := [TPhases] |};
    {| method_name := "Recover";
       method_params := [TRuntime; TRequest "machine" "RecoverRequest"];
       method_results := [TPhases] |};
    {| method_name := "Reset";
       method_params := [TRuntime; TRequest "machine" "ResetRequest"];
       method_results := [TPhases] |};
    {| method_name := "Shutdown"; method_params := [TRuntime]; method_results := [TPhases] |};
    {| method_name := "Upgrade";
       method_params := [TRuntime; TRequest "machine" "UpgradeRequest"];
       method_results := [TPhases] |} ].

(** A method can report failure when [error] is among its results. *)
Definition has_error_result (m : method) : bool :=
  existsb (gotype_eqb TError) (method_results m).

Section Sequencer.

(** [Runtime], [Phase] and the request messages are declared elsewhere; a
    request is passed by pointer, so it may be [nil]. *)
Variables Runtime Phase : Type.
Variables ApplyConfigurationRequest RecoverRequest ResetRequest UpgradeRequest : Type.

(** An implementation of the interface. *)
Record Sequencer : Type := {
  ApplyConfiguration : Runtime -> option ApplyConfigurationRequest -> list Phase;
  Boot : Runtime -> list Phase;
  Bootstrap : Runtime -> list Phase;
  Initialize : Runtime -> list Phase;
  Install : Runtime -> list Phase;
  Reboot : Runtime -> list Phase;
  Recover : Runtime -> option RecoverRequest -> list Phase;
  Reset : Runtime -> option ResetRequest -> list Phase;
  Shutdown : Runtime -> list Phase;
  Upgrade : Runtime -> option UpgradeRequest -> list Phase
}.

(** A call of one planning method with its arguments. *)
Inductive call : Type :=
| CallApplyConfiguration (r : Runtime) (req : option ApplyConfigurationRequest)
| CallBoot (r : Runtime)
| CallBootstrap (r : Runtime)
| CallInitialize (r : Runtime)
| CallInstall (r : Runtime)
| CallReboot (r : Runtime)
| CallRecover (r : Runtime) (req : option RecoverRequest)
| CallReset (r : Runtime) (req : option ResetRequest)
| CallShutdown (r : Runtime)
| CallUpgrade (r : Runtime) (req : option UpgradeRequest).

(** The name of the method a call selects. *)
Definition callee (c : call) : string :=
  match c with
  | CallApplyConfiguration _ _ => "ApplyConfiguration"
  | CallBoot _ => "Boot"
  | CallBootstrap _ => "Bootstrap"
  | CallInitialize _ => "Initialize"
  | CallInstall _ => "Install"
  | CallReboot _ => "Reboot"
  | CallRecover _ _ => "Recover"
  | CallReset _ _ => "Reset"
  | CallShutdown _ => "Shutdown"
  | CallUpgrade _ _ => "Upgrade"
  end.

(** Dynamic dispatch of a call on an implementation. *)
Definition invoke (seq : Sequencer) (c : call) : list Phase :=
  match c with
  | CallApplyConfiguration r req => ApplyConfiguration seq r req
  | CallBoot r => Boot seq r
  | CallBootstrap r => Bootstrap seq r
  | CallInitialize r => Initialize seq r
  | CallInstall r => Install seq r
  | CallReboot r => Reboot seq r
  | CallRecover r req => Recover seq r req
  | CallReset r req => Reset seq r req
  | CallShutdown r => Shutdown seq r
  | CallUpgrade r req => Upgrade seq r req
  end.

End Sequencer.

Arguments callee {Runtime ApplyConfigurationRequest RecoverRequest ResetRequest
  UpgradeRequest} c.
Arguments invoke {Runtime Phase ApplyConfigurationRequest RecoverRequest
  ResetRequest UpgradeRequest} seq c.

End runtime.

(** ** Package retry (github.com/talos-systems/go-retry), as used by image *)

Module retry.

(** [type Options struct]. *)
Record Options : Type := {
  Units : Duration;
  Jitter : Duration;
  LogErrors : bool
}.

(** A functional option. *)
Definition Option : Type := Options -> Options.

Definition WithUnits (o : Duration) : Option :=
  fun opts => {| Units := o; Jitter := Jitter opts; LogErrors := LogErrors opts |}.

Definition WithJitter (o : Duration) : Option :=
  fun opts => {| Units := Units opts; Jitter := o; LogErrors := LogErrors opts |}.

Definition WithErrorLogging (f : bool) : Option :=
  fun opts => {| Units := Units opts; Jitter := Jitter opts; LogErrors := f |}.

(** [NewDefaultOptions]: one-second units and no jitter unless a setter
    says otherwise. *)
Definition NewDefaultOptions (setters : list Option) : Options :=
  fold_left (fun opts setter => setter opts) setters
            {| Units := Second; Jitter := 0; LogErrors := false |}.

(** The back-off algorithms of the package. *)
Inductive algorithm : Type :=
| constantRetryer
| exponentialRetryer
| linearRetryer.

(** A retryer: its algorithm, the total time it may spend, and its options. *)
Record Retryer : Type := {
  kind : algorithm;
  duration : Duration;
  options : Options
}.

(** [retry.Exponential(duration, setters...)]. *)
Definition Exponential (d : Duration) (setters : list Option) : Retryer :=
  {| kind := exponentialRetryer; duration := d; options := NewDefaultOptions setters |}.

(** [ticker.Jitter]: zero when no jitter is configured, otherwise a random
    duration below the configured one ([rnd] is the generator's draw). *)
Definition ticker_Jitter (opts : Options) (rnd : Z) : Duration :=
  if Jitter opts =? 0 then 0 else rnd mod Jitter opts.

(** A retryer is jittered when its waits have a random component. *)
Definition jittered (r : Retryer) : bool :=
  negb (Jitter (options r) =? 0).

(** [ExpectedError] and [UnexpectedError] keep [nil] and wrap anything else. *)
Definition ExpectedError (err : option error) : option error :=
  match err with
  | None => None
  | Some e => Some (expectedError e)
  end.

Definition UnexpectedError (err : option error) : option error :=
  match err with
  | None => None
  | Some e => Some (unexpectedError e)
  end.

(** The type switch of the retry loop: only an [expectedError] is retried. *)
Definition retryable (err : error) : bool :=
  match err with
  | expectedError _ => true
  | _ => false
  end.

(** How a [Retry] call ends: with the call that returned [nil], or with the
    errors of the attempts made, in order. *)
Inductive outcome : Type :=
| Succeeded (c : nat)
| Aborted (errs : list error)
| TimedOut (errs : list error).

(** The retry loop.  [f c] is what the [c]-th call of the retried function
    returns; [budget] is the number of waits that end before the retryer's
    timer fires.  A [nil] result ends the loop with success, an error that is
    not expected ends it at once, an expected error is followed by a wait, and
    the timer firing during a wait ends the loop. *)
Fixpoint run (f : nat -> option error) (budget : nat) (c : nat) (errs : list error)
  : outcome :=
  match f c with
  | None => Succeeded c
  | Some err =>
      if retryable err then
        match budget with
        | O => TimedOut (errs ++ [err])
        | S budget' => run f budget' (S c) (errs ++ [err])
        end
      else Aborted (errs ++ [err])
  end.

Definition Retry (f : nat -> option error) (budget : nat) : outcome :=
  run f budget 0%nat [].

End retry.

(** ** Package image *)

Module image.

(** Image pull retry settings. *)
Definition PullTimeout : Duration := 20 * Minute.
Definition PullRetryInterval : Duration := 5 * Second.

(** Image import retry settings. *)
Definition ImportTimeout : Duration := 5 * Minute.
Definition ImportRetryInterval : Duration := 5 * Second.
Definition ImportRetryJitter : Duration := Second.

(** The retryer [Pull] builds. *)
Definition Pull_retryer : retry.Retryer :=
  retry.Exponential PullTimeout
    [retry.WithUnits PullRetryInterval; retry.WithErrorLogging true].

(** The retryer [Import] builds. *)
Definition Import_retryer : retry.Retryer :=
  retry.Exponential ImportTimeout
    [retry.WithUnits ImportRetryInterval; retry.WithJitter ImportRetryJitter;
     retry.WithErrorLogging true].

Section Pull.

(** [containerd.Image]. *)
Variable Image : Type.

(** The function [Pull] retries, applied to what [client.Pull] returned. *)
Definition Pull_attempt (ref : string) (pulled : Image + error) : option error :=
  match pulled with
  | inr err =>
      let err := ErrorfW "failed to pull image %q: %w" [ref] err in
      if errdefs_IsNotFound err then retry.UnexpectedError (Some err)
      else retry.ExpectedError (Some err)
  | inl _ => None
  end.

(** [Pull]: [client c] is the result of the [c]-th call of [client.Pull].  The
    image left in [img] by the successful call is returned, or [nil] and the
    failure of the retry loop. *)
Definition Pull (client : nat -> Image + error) (ref : string) (budget : nat)
  : option Image * retry.outcome :=
  let out := retry.Retry (fun c => Pull_attempt ref (client c)) budget in
  match out with
  | retry.Succeeded c =>
      match client c with
      | inl img => (Some img, out)
      | inr _ => (None, out)
      end
  | _ => (None, out)
  end.

End Pull.

Arguments Pull_attempt {Image} ref pulled.
Arguments Pull {Image} client ref budget.

(** The function [Import] retries, applied to what [importer.Import]
    returned. *)
Definition Import_attempt (imported : option error) : option error :=
  let err := retry.ExpectedError imported in
  let not_exist := match err with
                   | Some e => os_IsNotExist e
                   | None => false
                   end in
  if not_exist then retry.UnexpectedError err
  else retry.ExpectedError err.

(** [Import]: [importer c] is the result of the [c]-th call of
    [importer.Import]. *)
Definition Import (importer : nat -> option error) (budget : nat) : retry.outcome :=
  retry.Retry (fun c => Import_attempt (importer c)) budget.

End image.

(** ** Histories of calls, to state what the retry loop has seen *)

Module calls.

(** Calls [c], ..., [k - 1] of the retried function all fail with an expected
    error. *)
Definition expected_between (f : nat -> option error) (c k : nat) : Prop :=
  forall i, (c <= i < k)%nat ->
            exists e, f i = Some e /\ retry.retryable e = true.

(** Calls [0], ..., [k - 1] of [client.Pull] fail with errors other than
    "not found". *)
Definition transient_before {Image : Type} (client : nat -> Image + error) (k : nat)
  : Prop :=
  forall i, (i < k)%nat ->
            exists err, client i = inr err /\ errdefs_IsNotFound err = false.

End calls.

(** ** Package main of trustd: the subject alternative names of its certificate *)

Module trustd.

Section CertSANs.

(** [net.IP], and [net.ParseIP], which returns [nil] for a string that is not
    an IP address. *)
Variable IP : Type.
Variable ParseIP : string -> option IP.

(** The loop of [main] over [config.Machine().Security().CertSANs()]: a name
    that parses as an IP address is appended to [ips], any other to
    [dnsNames]. *)
Fixpoint add_cert_sans (sans : list string) (ips : list IP) (dnsNames : list string)
  : list IP * list string :=
  match sans with
  | [] => (ips, dnsNames)
  | san :: rest =>
      match ParseIP san with
      | Some ip => add_cert_sans rest (ips ++ [ip]) dnsNames
      | None => add_cert_sans rest ips (dnsNames ++ [san])
      end
  end.

End CertSANs.

Arguments add_cert_sans {IP} ParseIP sans ips dnsNames.

End trustd.

(** ** Package config of the client: contexts, their upgrade and merging *)

Module config.

Import stdpp.base stdpp.option stdpp.list stdpp.strings stdpp.gmap stdpp.fin_maps.

(** [type Context struct]. *)
Record Context : Type := {
  DeprecatedTarget : string;
  Endpoints : list string;
  Nodes : list string;
  CA : string;
  Crt : string;
  Key : string
}.

(** [func (c *Context) upgrade()], as its effect on the struct [c] points
    to. *)
Definition Context_upgrade (c : Context) : Context :=
  if negb (String.eqb (DeprecatedTarget c) "") then
    {| DeprecatedTarget := "";
       Endpoints := Endpoints c ++ [DeprecatedTarget c];
       Nodes := Nodes c; CA := CA c; Crt := Crt c; Key := Key c |}
  else c.

(** The run-time panics of this package's code. *)
Inductive panic : Type :=
| NilDereference       (* a field read through a nil [*Context] *)
| NilMapAssignment.    (* assignment to an entry of a nil map *)

Inductive outcome (A : Type) : Type :=
| Done (a : A)
| Panicked (p : panic).

Arguments Done {A} a.
Arguments Panicked {A} p.

(** [ctx.upgrade()] on a pointer [ctx], in the store [h]: a [*Context] is
    [nil] or the address of a struct in the store, and several map entries
    may hold the same address. *)
Definition upgrade_at (ctx : option positive) (h : gmap positive Context)
  : outcome (gmap positive Context) :=
  match ctx with
  | None => Panicked NilDereference
  | Some l => Done (alter Context_upgrade l h)
  end.

(** [type Config struct]; a [nil] map of contexts is [None]. *)
Record Config : Type := {
  Config_Context : string;
  Contexts : option (gmap string (option positive))
}.

(** The entries a [range] over the map visits: none for a [nil] map. *)
Definition entries (m : option (gmap string (option positive)))
  : gmap string (option positive) :=
  default ∅ m.

(** The body of the loop of [Config.upgrade]: [ctx.upgrade()], unless an
    earlier iteration panicked. *)
Definition upgrade_step (_ : string) (ctx : option positive)
    (acc : outcome (gmap positive Context)) : outcome (gmap positive Context) :=
  match acc with
  | Done h' => upgrade_at ctx h'
  | Panicked p => Panicked p
  end.

(** [func (c *Config) upgrade()]: every context of the map is upgraded, in
    the order the map is iterated. *)
Definition Config_upgrade (c : Config) (h : gmap positive Context)
  : outcome (gmap positive Context) :=
  map_fold upgrade_step (Done h) (entries (Contexts c)).

(** [c.Contexts[name] = ctx]. *)
Definition assign (name : string) (ctx : option positive)
    (m : option (gmap string (option positive)))
  : outcome (option (gmap string (option positive))) :=
  match m with
  | Some m' => Done (Some (<[name := ctx]> m'))
  | None => Panicked NilMapAssignment
  end.

(** The body of the loop of [Merge]: [c.Contexts[name] = ctx], unless an
    earlier iteration panicked. *)
Definition merge_step (name : string) (ctx : option positive)
    (acc : outcome (option (gmap string (option positive))))
  : outcome (option (gmap string (option positive))) :=
  match acc with
  | Done m => assign name ctx m
  | Panicked p => Panicked p
  end.

(** [func (c *Config) Merge(cfg *Config)], for [c] and [cfg] not [nil]: the
    new value of [*c].  The pointers of [cfg] are copied, so the structs are
    shared by both configurations afterwards. *)
Definition Merge (c cfg : Config) : outcome Config :=
  match map_fold merge_step (Done (Contexts c)) (entries (Contexts cfg)) with
  | Done m =>
      Done {| Config_Context :=
                if negb (String.eqb (Config_Context cfg) "")
                then Config_Context cfg else Config_Context c;
              Contexts := m |}
  | Panicked p => Panicked p
  end.

(** The current context after merging [cfg] into [c]. *)
Definition merged_context (c cfg : Config) : string :=
  if String.eqb (Config_Context cfg) "" then Config_Context c else Config_Context cfg.

(** Some entry of the map refers to the struct at [l]. *)
Definition referenced (m : gmap string (option positive)) (l : positive) : Prop :=
  exists name, m !! name = Some (Some l).

End config.

(** ** Text produced by [fmt] and [strconv] *)

Module text.

(** A line feed and a tab, as in the format strings. *)
Definition nl : string := String (ascii_of_nat 10) "".
Definition tab : string := String (ascii_of_nat 9) "".

(** The verb [%d] of an integer, which is also [strconv.FormatInt(z, 10)]. *)
Definition fmt_d (z : Z) : string := NilZero.string_of_int (Z.to_int z).

End text.

(** ** Package talos of talosctl: the [list] command *)

Module talosctl.

Import text.

(** [common.Metadata] and [machine.FileInfo], with the fields the command
    reads; [Metadata] is a pointer, [nil] when the message has none. *)
Record Metadata : Type := {
  Hostname : string;
  Metadata_Error : string
}.

Record FileInfo : Type := {
  FileInfo_Metadata : option Metadata;
  Name : string;
  Size : Z;
  Mode : Z;
  Modified : Z;
  FileInfo_Error : string;
  Link : string;
  RelativeName : string
}.

(** The non-nil errors of [stream.Recv]. *)
Inductive recv_error : Type :=
| io_EOF
| status_error (code : Z) (desc : string)     (* a gRPC status *)
| plain_error (msg : string).

Definition codes_Canceled : Z := 1.
Definition codes_Unknown : Z := 2.

(** [status.Code]: the code of a status, [Unknown] for any other error. *)
Definition status_Code (err : recv_error) : Z :=
  match err with
  | status_error code _ => code
  | _ => codes_Unknown
  end.

(** [err == io.EOF || status.Code(err) == codes.Canceled]. *)
Definition end_of_stream (err : recv_error) : bool :=
  match err with
  | io_EOF => true
  | _ => status_Code err =? codes_Canceled
  end.

(** What the command writes, in order: to standard output directly, into the
    tabwriter [w], or to standard error. *)
Inductive event : Type :=
| Stdout (s : string)
| Table (s : string)
| Stderr (s : string).

(** What [RunE] returns. *)
Inductive returned : Type :=
| ReturnNil
| ReturnFlush                                   (* the result of [w.Flush()] *)
| ReturnError (format : string) (err : recv_error).

(** The host name of a message, when it has metadata with a non-empty one. *)
Definition hostname (info : FileInfo) : option string :=
  match FileInfo_Metadata info with
  | Some md => if negb (Hostname md =? "")%string then Some (Hostname md) else None
  | None => None
  end.

(** The error of the metadata of a message, when it has a non-empty one. *)
Definition metadata_error (info : FileInfo) : option string :=
  match FileInfo_Metadata info with
  | Some md =>
      if negb (Metadata_Error md =? "")%string then Some (Metadata_Error md) else None
  | None => None
  end.

(** One iteration of the loop of the short listing, after a message was
    received: the new [multipleNodes] and [node], and what is written. *)
Definition short_step (multipleNodes : bool) (node : string) (info : FileInfo)
  : bool * string * event :=
  let '(multipleNodes, node) :=
    match hostname info with
    | Some h => (true, h)
    | None => (multipleNodes, node)
    end in
  match metadata_error info with
  | Some e => (multipleNodes, node, Stderr (node ++ ": " ++ e ++ nl))
  | None =>
      if negb (FileInfo_Error info =? "")%string then
        (multipleNodes, node,
         Stderr (node ++ ": error reading file " ++ Name info ++ ": "
                 ++ FileInfo_Error info ++ nl))
      else if negb multipleNodes then
        (multipleNodes, node, Stdout (RelativeName info ++ nl))
      else
        (multipleNodes, node, Table (node ++ tab ++ RelativeName info ++ nl))
  end.

(** The loop of the short listing: [infos] are the messages [stream.Recv]
    returns before it fails with [last]. *)
Fixpoint short_loop (infos : list FileInfo) (last : recv_error)
    (multipleNodes : bool) (node : string) : list event * returned :=
  match infos with
  | [] =>
      if end_of_stream last then
        if multipleNodes then ([], ReturnFlush) else ([], ReturnNil)
      else ([], ReturnError "error streaming results: %s" last)
  | info :: rest =>
      let '(multipleNodes', node', ev) := short_step multipleNodes node info in
      let '(evs, r) := short_loop rest last multipleNodes' node' in
      (ev :: evs, r)
  end.

(** The branch [!long] of the command. *)
Definition list_short (defaultNode : string) (infos : list FileInfo)
    (last : recv_error) : list event * returned :=
  let '(evs, r) := short_loop infos last false defaultNode in
  (Table ("NODE" ++ tab ++ "NAME" ++ nl) :: evs, r).

Section Long.

(** [os.FileMode.String], [humanize.Bytes], [humanize.Time] and [Time.Format]
    (of a layout and a Unix time), and the test
    [time.Since(timestamp) < sixMonths]; the two that read the clock take the
    number of the iteration. *)
Variable FileMode_String : Z -> string.
Variable humanize_Bytes : Z -> string.
Variable humanize_Time : nat -> Z -> string.
Variable Format : string -> Z -> string.
Variable recent : nat -> Z -> bool.

(** The flag [--humanize]. *)
Variable humanizeFlag : bool.

(** One iteration of the loop of the long listing. *)
Definition long_step (defaultNode : string) (i : nat) (info : FileInfo) : event :=
  let node :=
    match hostname info with
    | Some h => h
    | None => defaultNode
    end in
  if negb (FileInfo_Error info =? "")%string then
    Stderr (node ++ ": error reading file " ++ Name info ++ ": "
            ++ FileInfo_Error info ++ nl)
  else
    match metadata_error info with
    | Some e => Stderr (node ++ ": " ++ e ++ nl)
    | None =>
        let display :=
          if negb (Link info =? "")%string
          then RelativeName info ++ " -> " ++ Link info
          else RelativeName info in
        let size :=
          if humanizeFlag then humanize_Bytes (Size info mod 2 ^ 64)
          else fmt_d (Size info) in
        let timestampFormatted :=
          if humanizeFlag then humanize_Time i (Modified info)
          else if recent i (Modified info)
               then Format "Jan _2 15:04:05" (Modified info)
               else Format "Jan _2 2006 15:04" (Modified info) in
        Table (node ++ tab ++ FileMode_String (Mode info) ++ tab ++ size ++ tab
               ++ timestampFormatted ++ tab ++ display ++ nl)
    end.

(** The loop of the long listing, from iteration [i]. *)
Fixpoint long_loop (defaultNode : string) (infos : list FileInfo)
    (last : recv_error) (i : nat) : list event * returned :=
  match infos with
  | [] =>
      if end_of_stream last then ([], ReturnFlush)
      else ([], ReturnError "error streaming results: %s" last)
  | info :: rest =>
      let '(evs, r) := long_loop defaultNode rest last (S i) in
      (long_step defaultNode i info :: evs, r)
  end.

(** The long listing. *)
Definition list_long (defaultNode : string) (infos : list FileInfo)
    (last : recv_error) : list event * returned :=
  let '(evs, r) := long_loop defaultNode infos last 0%nat in
  (Table ("NODE" ++ tab ++ "MODE" ++ tab ++ "SIZE(B)" ++ tab ++ "LASTMOD" ++ tab
          ++ "NAME" ++ nl) :: evs, r).

End Long.

(** What the short listing writes for a message while no host name has been
    seen. *)
Definition plain_line (defaultNode : string) (info : FileInfo) : event :=
  match metadata_error info with
  | Some e => Stderr (defaultNode ++ ": " ++ e ++ nl)
  | None =>
      if negb (FileInfo_Error info =? "")%string then
        Stderr (defaultNode ++ ": error reading file " ++ Name info ++ ": "
                ++ FileInfo_Error info ++ nl)
      else Stdout (RelativeName info ++ nl)
  end.

(** An event that writes to standard output directly. *)
Definition is_stdout (ev : event) : bool :=
  match ev with
  | Stdout _ => true
  | _ => false
  end.

End talosctl.

(** ** Package qemu of the provisioner: the command line of the VM *)

Module qemu.

Import text.

(** [type LaunchConfig struct], with the fields [launchVM] builds the command
    line from; [NodeUUID] is held as the text [%s] prints for it. *)
Record LaunchConfig : Type := {
  DiskPath : string;
  VCPUCount : Z;
  MemSize : Z;
  QemuExecutable : string;
  KernelImagePath : string;
  InitrdPath : string;
  PFlashImages : list string;
  KernelArgs : string;
  MachineType : string;
  EnableKVM : bool;
  BootloaderEnabled : bool;
  NodeUUID : string;
  tapName : string;
  vmMAC : string
}.

(** What [checkPartitions] finds on the disk: the errors of [os.Open], of
    [gpt.NewGPT] and of [diskTable.Read], and the number of partitions of
    the table. *)
Record disk_probe : Type := {
  open_error : option error;
  gpt_error : option error;
  read_error : option error;
  partitions : nat
}.

(** [func checkPartitions(config *LaunchConfig) (bool, error)]. *)
Definition checkPartitions (probe : disk_probe) : bool * option error :=
  match open_error probe with
  | Some err => (false, Some (ErrorfW "failed to open disk file %w" [] err))
  | None =>
      match gpt_error probe with
      | Some err => (false, Some (ErrorfW "error creating GPT object: %w" [] err))
      | None =>
          match read_error probe with
          | Some _ => (false, None)
          | None => ((0 <? partitions probe)%nat, None)
          end
      end
  end.

(** [a[i] = x] on a slice; [None] is the panic of an index out of range. *)
Fixpoint store {A : Type} (a : list A) (i : nat) (x : A) : option (list A) :=
  match a, i with
  | [], _ => None
  | _ :: rest, O => Some (x :: rest)
  | y :: rest, S i' =>
      match store rest i' x with
      | Some rest' => Some (y :: rest')
      | None => None
      end
  end.

(** The body of the loop that fills [pflashArgs]. *)
Definition pflash_step (images : list string) (acc : option (list string)) (i : nat)
  : option (list string) :=
  match acc, nth_error images i with
  | Some a, Some image =>
      match store a (2 * i) "-drive" with
      | Some a' => store a' (2 * i + 1) ("file=" ++ image ++ ",format=raw,if=pflash")
      | None => None
      end
  | _, _ => None
  end.

(** [pflashArgs]: a slice of [2*len(config.PFlashImages)] empty strings, filled
    by index for [i] over the range of the images. *)
Definition pflashArgs (images : list string) : option (list string) :=
  fold_left (pflash_step images) (seq 0 (length images))
            (Some (repeat "" (2 * length images))).

(** How [launchVM] gets to starting the VM. *)
Inductive launch : Type :=
| IndexPanic
| Failed (err : error)
| Exec (name : string) (args : list string).     (* exec.Command(name, args...) *)

(** [launchVM] up to the command it starts; [forcePXE] is
    [config.controller.ForcePXEBoot()]. *)
Definition launchVM (config : LaunchConfig) (forcePXE : bool) (probe : disk_probe)
  : launch :=
  let bootOrder := if forcePXE then "nc" else "cn" in
  let args :=
    ["-m"; fmt_d (MemSize config);
     "-drive"; "format=raw,if=virtio,file=" ++ DiskPath config;
     "-smp"; "cpus=" ++ fmt_d (VCPUCount config);
     "-cpu"; "max";
     "-nographic";
     "-netdev"; "tap,id=net0,ifname=" ++ tapName config ++ ",script=no,downscript=no";
     "-device"; "virtio-net-pci,netdev=net0,mac=" ++ vmMAC config;
     "-device"; "virtio-rng-pci";
     "-no-reboot";
     "-boot"; "order=" ++ bootOrder ++ ",reboot-timeout=5000";
     "-smbios"; "type=1,uuid=" ++ NodeUUID config] in
  let machineArg :=
    if EnableKVM config then MachineType config ++ ",accel=kvm"
    else MachineType config in
  let args := (args ++ ["-machine"; machineArg])%list in
  match pflashArgs (PFlashImages config) with
  | None => IndexPanic
  | Some pflash =>
      let args := (args ++ pflash)%list in
      match checkPartitions probe with
      | (_, Some err) => Failed err
      | (diskBootable, None) =>
          let args :=
            if (negb diskBootable || negb (BootloaderEnabled config))
               && negb (KernelImagePath config =? "")%string
            then (args ++ ["-kernel"; KernelImagePath config;
                           "-initrd"; InitrdPath config;
                           "-append"; KernelArgs config])%list
            else args in
          Exec (QemuExecutable config) args
      end
  end.

(** The pair of arguments of one pflash image. *)
Definition pflash_drive (image : string) : list string :=
  ["-drive"; "file=" ++ image ++ ",format=raw,if=pflash"].

(** *** [withCNI] *)

(** The errors of the calls [withCNI] makes, each made at most once but for
    [DelNetworkList], which is called before the network is added and again
    when [withCNI] returns; [next_error] is what [f(config)] returns. *)
Record cni_outcomes : Type := {
  newns_error : option error;
  del_before_error : option error;
  add_error : option error;
  parse_error : option error;
  tap_error : option error;
  dump_error : option error;
  next_error : option error;
  del_after_error : option error
}.

(** The calls of [withCNI] that act on the system, and its log line. *)
Inductive effect : Type :=
| NewNS
| DelNetworkList
| AddNetworkList
| NewResultFromResult
| VMTapPair
| DumpIPAMRecord
| Next                                     (* f(config) *)
| LogPrintf (format : string) (err : error)
| NSClose
| UnmountNS.

(** The deferred function registered first: it runs last. *)
Definition release_ns : list effect := [NSClose; UnmountNS].

(** The deferred function registered after the network was added. *)
Definition release_network (o : cni_outcomes) : list effect :=
  DelNetworkList ::
  match del_after_error o with
  | Some e => [LogPrintf "error cleaning up CNI: %s" e]
  | None => []
  end.

(** [withCNI] from the parsing of the CNI result on: the calls made and the
    error returned. *)
Definition configure (o : cni_outcomes) : list effect * option error :=
  match parse_error o with
  | Some err =>
      ([NewResultFromResult], Some (ErrorfW "failed to parse cni result: %w" [] err))
  | None =>
      match tap_error o with
      | Some _ =>
          ([NewResultFromResult; VMTapPair],
           Some (Errorf
                   ("failed to parse VM network configuration from CNI output, ensure CNI is configured with a plugin "
                    ++ "that supports automatic VM network configuration such as tc-redirect-tap")
                   []))
      | None =>
          match dump_error o with
          | Some err => ([NewResultFromResult; VMTapPair; DumpIPAMRecord], Some err)
          | None =>
              ([NewResultFromResult; VMTapPair; DumpIPAMRecord; Next], next_error o)
          end
      end
  end.

(** [func withCNI(ctx, config, f) error]: the calls made, in order, with the
    deferred ones at the end, and the error returned. *)
Definition withCNI (o : cni_outcomes) : list effect * option error :=
  match newns_error o with
  | Some err => ([NewNS], Some err)
  | None =>
      match del_before_error o with
      | Some err =>
          (([NewNS; DelNetworkList] ++ release_ns)%list,
           Some (ErrorfW "error deleting CNI network: %w" [] err))
      | None =>
          match add_error o with
          | Some err =>
              (([NewNS; DelNetworkList; AddNetworkList] ++ release_ns)%list,
               Some (ErrorfW "error provisioning CNI network: %w" [] err))
          | None =>
              let '(calls, ret) := configure o in
              (([NewNS; DelNetworkList; AddNetworkList] ++ calls
                ++ release_network o ++ release_ns)%list, ret)
          end
      end
  end.

Definition effect_eqb (a b : effect) : bool :=
  match a, b with
  | NewNS, NewNS | DelNetworkList, DelNetworkList
  | AddNetworkList, AddNetworkList | NewResultFromResult, NewResultFromResult
  | VMTapPair, VMTapPair | DumpIPAMRecord, DumpIPAMRecord | Next, Next
  | NSClose, NSClose | UnmountNS, UnmountNS => true
  | _, _ => false
  end.

(** How often a call occurs among the calls made. *)
Definition count (e : effect) (calls : list effect) : nat :=
  length (filter (effect_eqb e) calls).

(** *** The provisioner *)

Section Provisioner.

(** [net.IP] and its [String] method. *)
Variable IP : Type.
Variable IP_String : IP -> string.

(** The options [GenOptions] returns. *)
Inductive GenOption : Type :=
| WithInstallDisk (disk : string)
| WithInstallExtraKernelArgs (args : list string).

(** The body of the loop that fills [nameservers]. *)
Definition nameserver_step (ns : list IP) (acc : option (list string)) (i : nat)
  : option (list string) :=
  match acc, nth_error ns i with
  | Some a, Some ip => store a i (IP_String ip)
  | _, _ => None
  end.

(** [nameservers]: a slice of [len(networkReq.Nameservers)] empty strings,
    filled by index over its own range. *)
Definition nameservers (ns : list IP) : option (list string) :=
  fold_left (nameserver_step ns) (seq 0 (length (repeat "" (length ns))))
            (Some (repeat "" (length ns))).

(** [func (p *provisioner) GenOptions(networkReq)], as a function of the
    name servers of the request; [None] is a panic. *)
Definition GenOptions (ns : list IP) : option (list GenOption) :=
  match nameservers ns with
  | None => None
  | Some _ =>
      Some [WithInstallDisk "/dev/vda";
            WithInstallExtraKernelArgs
              ["console=ttyS0"; "reboot=k"; "panic=1"; "talos.platform=metal"]]
  end.

End Provisioner.

Arguments nameservers {IP} IP_String ns.
Arguments GenOptions {IP} IP_String ns.

End qemu.

(** * Properties *)

Import runtime.

(** ** Sequence strings and parsing *)

Section SequenceFacts.

(** The array literal has eleven entries. *)
Lemma identifiers_length : Z.of_nat (length identifiers) = 11.
Proof. reflexivity. Qed.

(** A valid sequence is one of the eleven constants. *)
Lemma valid_cases (s : Sequence) :
  valid s ->
  s = SequenceApplyConfiguration \/ s = SequenceBoot \/ s = SequenceBootstrap \/
  s = SequenceInitialize \/ s = SequenceInstall \/ s = SequenceShutdown \/
  s = SequenceUpgrade \/ s = SequenceReset \/ s = SequenceReboot \/
  s = SequenceRecover \/ s = SequenceNoop.
Proof.
  unfold valid, SequenceApplyConfiguration, SequenceBoot, SequenceBootstrap,
    SequenceInitialize, SequenceInstall, SequenceShutdown, SequenceUpgrade,
    SequenceReset, SequenceReboot, SequenceRecover, SequenceNoop.
  lia.
Qed.

Lemma valid_iff_In (s : Sequence) : valid s <-> In s Sequences.
Proof.
  split.
  - intros H. apply valid_cases in H. simpl. intuition.
  - simpl. intros H.
    repeat (destruct H as [H | H]; [subst s; unfold valid; vm_compute; split; discriminate |]).
    contradiction.
Qed.

(** A branch of the [switch] in [ParseSequence] that matched the constant of
    [seq]. *)
Ltac matched seq :=
  left; split;
  [ simpl; auto 20
  | exists seq; repeat split; vm_compute; congruence ].

(** What [ParseSequence] returns, by membership of its argument in the
    string table. *)
Lemma ParseSequence_cases (s : string) :
  (In s identifiers /\
   exists seq, valid seq /\ Sequence_String seq = Ok s /\ ParseSequence s = (seq, None))
  \/ (~ In s identifiers /\ ParseSequence s = (0, Some (unknown_sequence s))).
Proof.
  unfold ParseSequence.
  destruct (String.eqb_spec s applyConfiguration) as [-> | n0].
  { matched SequenceApplyConfiguration. }
  destruct (String.eqb_spec s boot) as [-> | n1].
  { matched SequenceBoot. }
  destruct (String.eqb_spec s bootstrap) as [-> | n2].
  { matched SequenceBootstrap. }
  destruct (String.eqb_spec s initialize) as [-> | n3].
  { matched SequenceInitialize. }
  destruct (String.eqb_spec s install) as [-> | n4].
  { matched SequenceInstall. }
  destruct (String.eqb_spec s shutdown) as [-> | n5].
  { matched SequenceShutdown. }
  destruct (String.eqb_spec s upgrade) as [-> | n6].
  { matched SequenceUpgrade. }
  destruct (String.eqb_spec s reset) as [-> | n7].
  { matched SequenceReset. }
  destruct (String.eqb_spec s reboot) as [-> | n8].
  { matched SequenceReboot. }
  destruct (String.eqb_spec s recover) as [-> | n9].
  { matched SequenceRecover. }
  destruct (String.eqb_spec s noop) as [-> | n10].
  { matched SequenceNoop. }
  right. split; [| reflexivity].
  simpl. intros H.
  repeat (destruct H as [H | H]; [symmetry in H; contradiction |]).
  exact H.
Qed.

(** Inside the enumeration the array index is in bounds. *)
Lemma Sequence_String_valid (s : Sequence) :
  valid s -> exists str, Sequence_String s = Ok str /\ In str identifiers.
Proof.
  intros H. apply valid_cases in H.
  repeat (destruct H as [H | H];
          [subst s; eexists; split; [reflexivity | simpl; auto 20] |]).
  subst s; eexists; split; [reflexivity | simpl; auto 20].
Qed.

(** Outside the enumeration the array index is out of range. *)
Lemma Sequence_String_invalid (s : Sequence) :
  ~ valid s -> Sequence_String s = Panic (IndexOutOfRange s 11).
Proof.
  unfold valid, SequenceApplyConfiguration, SequenceNoop.
  intros Hn. unfold Sequence_String, index.
  rewrite identifiers_length.
  destruct (Z.ltb_spec s 0) as [Hlt | Hge]; [reflexivity |].
  destruct (Z.leb_spec 11 s) as [Hle | Hlt]; [reflexivity |].
  exfalso. apply Hn. lia.
Qed.

End SequenceFacts.

Section SequenceClaims.

(** C1. Round trip: for every sequence [s] of the closed enumeration
    ([SequenceApplyConfiguration] through [SequenceNoop]), [s.String()]
    returns a string, and [ParseSequence] applied to it returns exactly [s]
    with a [nil] error. *)
Theorem ParseSequence_String_roundtrip (s : Sequence) :
  valid s ->
  exists str, Sequence_String s = Ok str /\ ParseSequence str = (s, None).
Proof.
  intros H. apply valid_cases in H.
  repeat (destruct H as [H | H]; [subst s; eexists; split; reflexivity |]).
  subst s. eexists; split; reflexivity.
Qed.

(** The round trip at [SequenceBoot]: its string is "boot", which parses back
    to [SequenceBoot]. *)
Lemma ParseSequence_String_roundtrip_witness :
  valid SequenceBoot /\
  exists str, Sequence_String SequenceBoot = Ok str /\
              ParseSequence str = (SequenceBoot, None).
Proof.
  assert (Hv : valid SequenceBoot) by (unfold valid; vm_compute; split; discriminate).
  split; [exact Hv | exact (ParseSequence_String_roundtrip SequenceBoot Hv)].
Defined.

(** C2. A string that is not one of the eleven identifiers makes
    [ParseSequence] return the non-nil "unknown runtime sequence" error built
    from that string; the comparison is exact, so a string that only becomes
    an identifier after lowering its case or trimming it is rejected too. *)
Theorem ParseSequence_unknown (s : string) :
  ~ In s identifiers ->
  snd (ParseSequence s) = Some (Errorf "unknown runtime sequence: %q" [s]).
Proof.
  intros Hnot.
  destruct (ParseSequence_cases s) as [[Hin _] | [_ Heq]].
  - contradiction.
  - rewrite Heq. reflexivity.
Qed.

(** Deciding that a literal is not in the string table. *)
Ltac not_identifier :=
  let H := fresh in
  simpl; intros H;
  repeat (destruct H as [H | H]; [discriminate H |]);
  exact H.

(** "Boot" lowers to an identifier and " boot" trims to one, yet both are
    rejected, as is "frobnicate". *)
Lemma ParseSequence_unknown_witness :
  (In (ToLower "Boot") identifiers /\
   snd (ParseSequence "Boot") = Some (Errorf "unknown runtime sequence: %q" ["Boot"])) /\
  (In (TrimLeft " boot") identifiers /\
   snd (ParseSequence " boot") = Some (Errorf "unknown runtime sequence: %q" [" boot"])) /\
  snd (ParseSequence "frobnicate")
  = Some (Errorf "unknown runtime sequence: %q" ["frobnicate"]).
Proof.
  split; [split | split; [split |]].
  - simpl. auto.
  - apply (ParseSequence_unknown "Boot"). not_identifier.
  - simpl. auto.
  - apply (ParseSequence_unknown " boot"). not_identifier.
  - apply (ParseSequence_unknown "frobnicate"). not_identifier.
Defined.

(** C3, as the claim states it, fails: the string of
    [SequenceApplyConfiguration] is not all lowercase. *)
Lemma String_applyConfiguration_not_lowercase :
  exists str,
    Sequence_String SequenceApplyConfiguration = Ok str /\
    all_lower str = false /\
    ToLower str <> str.
Proof.
  exists "applyConfiguration". repeat split. vm_compute. discriminate.
Qed.

(** C3, amended. For every sequence of the closed enumeration, [String()]
    returns the entry of the string table at the position of the enum value;
    the entry is made of ASCII letters and starts with a lowercase one, and it
    is all lowercase exactly when the sequence is not
    [SequenceApplyConfiguration], whose string is "applyConfiguration". *)
Theorem String_positional_identifier (s : Sequence) :
  valid s ->
  exists str,
    Sequence_String s = Ok str /\
    nth_error identifiers (Z.to_nat s) = Some str /\
    all_letters str = true /\
    all_lower (substring 0 1 str) = true /\
    (all_lower str = true <-> s <> SequenceApplyConfiguration) /\
    (s = SequenceApplyConfiguration -> str = "applyConfiguration").
Proof.
  intros H. apply valid_cases in H.
  destruct H as [H | H].
  { subst s. eexists. repeat split; try reflexivity.
    - vm_compute. discriminate.
    - intros Hne. contradiction. }
  repeat (destruct H as [H | H];
          [ subst s; eexists; repeat split; try reflexivity;
            vm_compute; discriminate |]).
  subst s; eexists; repeat split; try reflexivity; vm_compute; discriminate.
Qed.

(** The lookup at [SequenceUpgrade]. *)
Lemma String_positional_identifier_witness :
  valid SequenceUpgrade /\
  exists str,
    Sequence_String SequenceUpgrade = Ok str /\
    nth_error identifiers (Z.to_nat SequenceUpgrade) = Some str /\
    all_letters str = true /\
    all_lower (substring 0 1 str) = true /\
    (all_lower str = true <-> SequenceUpgrade <> SequenceApplyConfiguration) /\
    (SequenceUpgrade = SequenceApplyConfiguration -> str = "applyConfiguration").
Proof.
  assert (Hv : valid SequenceUpgrade) by (unfold valid; vm_compute; split; discriminate).
  split; [exact Hv | exact (String_positional_identifier SequenceUpgrade Hv)].
Defined.

(** C4, as the claim states it, fails: on an unknown string the returned
    sequence is the zero value, which is the valid member
    [SequenceApplyConfiguration]. *)
Lemma ParseSequence_failure_value_is_valid :
  ~ In "frobnicate" identifiers /\
  snd (ParseSequence "frobnicate") <> None /\
  fst (ParseSequence "frobnicate") = SequenceApplyConfiguration /\
  valid (fst (ParseSequence "frobnicate")).
Proof.
  split; [not_identifier |].
  split; [vm_compute; discriminate |].
  split; [reflexivity |].
  unfold valid; vm_compute; split; discriminate.
Qed.

(** C4, amended. For a string outside the table, [ParseSequence] returns the
    zero [Sequence] together with a non-nil error; that zero value equals
    [SequenceApplyConfiguration], so only the error tells the failure apart
    from a successful parse of "applyConfiguration". *)
Theorem ParseSequence_failure_returns_zero (s : string) :
  ~ In s identifiers ->
  ParseSequence s = (0, Some (unknown_sequence s)) /\
  fst (ParseSequence s) = SequenceApplyConfiguration /\
  fst (ParseSequence s) = fst (ParseSequence applyConfiguration) /\
  snd (ParseSequence s) <> snd (ParseSequence applyConfiguration).
Proof.
  intros Hnot.
  destruct (ParseSequence_cases s) as [[Hin _] | [_ Heq]]; [contradiction |].
  rewrite Heq. repeat split. simpl. discriminate.
Qed.

(** The failure path at "frobnicate". *)
Lemma ParseSequence_failure_returns_zero_witness :
  ParseSequence "frobnicate" = (0, Some (unknown_sequence "frobnicate")) /\
  fst (ParseSequence "frobnicate") = SequenceApplyConfiguration /\
  fst (ParseSequence "frobnicate") = fst (ParseSequence applyConfiguration) /\
  snd (ParseSequence "frobnicate") <> snd (ParseSequence applyConfiguration).
Proof.
  apply (ParseSequence_failure_returns_zero "frobnicate"). not_identifier.
Defined.

(** C9. A sequence that is one of the named constants, or that
    [ParseSequence] returned with a [nil] error, is one of the eleven variants:
    its integer value lies between 0 and 10. *)
Theorem constructed_in_range (seq : Sequence) :
  constructed seq -> 0 <= seq <= 10 /\ In seq Sequences.
Proof.
  intros H.
  assert (Hv : valid seq).
  { inversion H as [q Hin | s q Hparse]; subst.
    - apply valid_iff_In. exact Hin.
    - destruct (ParseSequence_cases s) as [[_ [seq' [Hv [_ Heq]]]] | [_ Heq]];
        rewrite Heq in Hparse; inversion Hparse; subst.
      exact Hv. }
  split; [exact Hv | apply valid_iff_In; exact Hv].
Qed.

(** [SequenceReboot], obtained by parsing "reboot". *)
Lemma constructed_in_range_witness :
  constructed SequenceReboot /\
  (0 <= SequenceReboot <= 10 /\ In SequenceReboot Sequences).
Proof.
  assert (Hc : constructed SequenceReboot).
  { apply (constructed_parsed "reboot"). reflexivity. }
  split; [exact Hc | exact (constructed_in_range SequenceReboot Hc)].
Defined.

(** C10. [String()] returns without panic exactly when the integer of the
    sequence is between 0 and 10; for every other value the array index is
    out of range and the call panics, with no fallback string. *)
Theorem String_safe_iff_in_range (s : Sequence) :
  ((exists str, Sequence_String s = Ok str) <-> 0 <= s <= 10) /\
  (~ 0 <= s <= 10 -> Sequence_String s = Panic (IndexOutOfRange s 11)).
Proof.
  split; [split |].
  - intros [str Hok].
    destruct (Z_le_dec 0 s) as [H0 | H0]; [destruct (Z_le_dec s 10) as [H1 | H1] |];
      try (split; assumption);
      rewrite Sequence_String_invalid in Hok
        by (unfold valid, SequenceApplyConfiguration, SequenceNoop; lia);
      discriminate Hok.
  - intros Hr.
    destruct (Sequence_String_valid s Hr) as [str [Hs _]].
    exists str. exact Hs.
  - exact (Sequence_String_invalid s).
Qed.

End SequenceClaims.

(** ** The Sequencer interface *)

Section SequencerClaims.


End SequencerClaims.

(** ** The retry loop *)

Section RetryFacts.

Variable f : nat -> option error.

(** A [nil] result ends the loop. *)
Lemma run_success (budget c : nat) (errs : list error) :
  f c = None -> retry.run f budget c errs = retry.Succeeded c.
Proof. intros H. destruct budget; simpl; rewrite H; reflexivity. Qed.

(** An error that is not expected ends the loop, whatever time is left. *)
Lemma run_abort (budget c : nat) (errs : list error) (err : error) :
  f c = Some err -> retry.retryable err = false ->
  retry.run f budget c errs = retry.Aborted (errs ++ [err]).
Proof. intros H Hr. destruct budget; simpl; rewrite H, Hr; reflexivity. Qed.

(** An expected error is followed by another call while time is left. *)
Lemma run_again (budget c : nat) (errs : list error) (err : error) :
  f c = Some err -> retry.retryable err = true ->
  retry.run f (S budget) c errs = retry.run f budget (S c) (errs ++ [err]).
Proof. intros H Hr. simpl. rewrite H, Hr. reflexivity. Qed.

(** An expected error with no time left ends the loop by timeout. *)
Lemma run_timeout (c : nat) (errs : list error) (err : error) :
  f c = Some err -> retry.retryable err = true ->
  retry.run f 0 c errs = retry.TimedOut (errs ++ [err]).
Proof. intros H Hr. simpl. rewrite H, Hr. reflexivity. Qed.

(** When every call fails with the same expected error, the loop spends its
    whole budget and times out after [budget + 1] calls. *)
Lemma run_always_expected (err : error) :
  (forall c, f c = Some err) -> retry.retryable err = true ->
  forall budget c errs,
    retry.run f budget c errs = retry.TimedOut (errs ++ repeat err (S budget)).
Proof.
  intros Hf Hr. induction budget as [| b IH]; intros c errs.
  - apply run_timeout; [apply Hf | exact Hr].
  - rewrite (run_again b c errs err (Hf c) Hr).
    rewrite IH. rewrite <- app_assoc. reflexivity.
Qed.

(** A run of [k] expected errors uses up [k] waits of the budget and leaves
    the loop at call [c + k]. *)
Lemma run_skip_expected (k : nat) :
  forall budget c errs,
    (k <= budget)%nat ->
    (forall i, (i < k)%nat ->
               exists e, f (c + i)%nat = Some e /\ retry.retryable e = true) ->
    exists errs',
      length errs' = k /\
      retry.run f budget c errs = retry.run f (budget - k) (c + k) (errs ++ errs').
Proof.
  induction k as [| k IH]; intros budget c errs Hk Hexp.
  - exists []. split; [reflexivity |].
    rewrite Nat.sub_0_r, Nat.add_0_r, app_nil_r. reflexivity.
  - destruct budget as [| b]; [lia |].
    destruct (Hexp 0%nat ltac:(lia)) as [e [He Hr]].
    rewrite Nat.add_0_r in He.
    rewrite (run_again b c errs e He Hr).
    destruct (IH b (S c) (errs ++ [e])%list ltac:(lia)) as [errs' [Hlen Hrun]].
    { intros i Hi. destruct (Hexp (S i) ltac:(lia)) as [e' [He' Hr']].
      exists e'. split; [| exact Hr'].
      rewrite <- He'. f_equal. lia. }
    exists (e :: errs'). split; [simpl; lia |].
    rewrite Hrun. simpl. rewrite <- app_assoc. simpl.
    f_equal. lia.
Qed.

End RetryFacts.

(** ** Image pull and import *)

Import image.

Section ImageClaims.

(** Wrapping with [%w] keeps the "not found" test of the wrapped error. *)
Lemma IsNotFound_ErrorfW (format : string) (args : list string) (err : error) :
  errdefs_IsNotFound (ErrorfW format args err) = errdefs_IsNotFound err.
Proof. reflexivity. Qed.

(** [os.IsNotExist] never holds of an error wrapped by the retry package. *)
Lemma IsNotExist_expectedError (err : error) :
  os_IsNotExist (expectedError err) = false.
Proof. reflexivity. Qed.

(** C6. In [Pull], when a call of [client.Pull] fails with a "not found"
    error, the retried function returns it as an unexpected error and the retry
    loop ends there, whatever time is left; when it fails with any other
    error, the function returns it as an expected error, after which the loop
    calls again while time is left and times out otherwise. *)
Theorem Pull_error_classification (Image : Type) (client : nat -> Image + error)
    (ref : string) (err : error) (budget c : nat) (errs : list error) :
  client c = inr err ->
  let wrapped := ErrorfW "failed to pull image %q: %w" [ref] err in
  let f := fun n => Pull_attempt ref (client n) in
  (errdefs_IsNotFound err = true ->
     f c = Some (unexpectedError wrapped) /\
     retry.run f budget c errs = retry.Aborted (errs ++ [unexpectedError wrapped])) /\
  (errdefs_IsNotFound err = false ->
     f c = Some (expectedError wrapped) /\
     retry.run f (S budget) c errs
     = retry.run f budget (S c) (errs ++ [expectedError wrapped]) /\
     retry.run f 0 c errs = retry.TimedOut (errs ++ [expectedError wrapped])).
Proof.
  intros Hc wrapped f.
  assert (Hf : f c = if errdefs_IsNotFound err
                     then Some (unexpectedError wrapped)
                     else Some (expectedError wrapped)).
  { unfold f, Pull_attempt. rewrite Hc.
    rewrite IsNotFound_ErrorfW.
    destruct (errdefs_IsNotFound err); reflexivity. }
  split; intros Hnf; rewrite Hnf in Hf.
  - split; [exact Hf |].
    apply run_abort; [exact Hf | reflexivity].
  - split; [exact Hf |]. split.
    + apply run_again; [exact Hf | reflexivity].
    + apply run_timeout; [exact Hf | reflexivity].
Qed.

(** [Pull] on a registry that answers "not found" stops at the first call with
    time to spare; on one that refuses the connection, with no time left, it
    times out. *)
Lemma Pull_error_classification_witness :
  let missing := Sentinel errdefs_ErrNotFound in
  let refused := New "connection refused" in
  let ref := "docker.io/library/busybox:latest" in
  let wrap := ErrorfW "failed to pull image %q: %w" [ref] in
  Pull (Image := unit) (fun _ => inr missing) ref 7
  = (None, retry.Aborted [unexpectedError (wrap missing)]) /\
  Pull (Image := unit) (fun _ => inr refused) ref 0
  = (None, retry.TimedOut [expectedError (wrap refused)]).
Proof.
  intros missing refused ref wrap. unfold Pull, retry.Retry. split.
  - destruct (Pull_error_classification unit (fun _ => inr missing) ref missing
                7 0 [] eq_refl) as [Hnf _].
    destruct (Hnf eq_refl) as [_ Hrun]. rewrite Hrun. reflexivity.
  - destruct (Pull_error_classification unit (fun _ => inr refused) ref refused
                0 0 [] eq_refl) as [_ Hother].
    destruct (Hother eq_refl) as [_ [_ Hrun]]. rewrite Hrun. reflexivity.
Defined.

(** After [k] failures that are not "not found", a "not found" failure ends
    [Pull] at call [k]: the calls after it are never made. *)
Lemma Pull_stops_at_first_not_found (Image : Type) (client : nat -> Image + error)
    (ref : string) (budget k : nat) (err : error) :
  (k <= budget)%nat ->
  (forall i, (i < k)%nat ->
             exists e, client i = inr e /\ errdefs_IsNotFound e = false) ->
  client k = inr err ->
  errdefs_IsNotFound err = true ->
  exists errs,
    length errs = k /\
    Pull client ref budget
    = (None,
       retry.Aborted
         (errs ++ [unexpectedError (ErrorfW "failed to pull image %q: %w" [ref] err)])).
Proof.
  intros Hk Hother Hc Hnf.
  set (f := fun n => Pull_attempt ref (client n)).
  destruct (run_skip_expected f k budget 0%nat [] Hk) as [errs [Hlen Hrun]].
  { intros i Hi. destruct (Hother i Hi) as [e [He Hne]].
    exists (expectedError (ErrorfW "failed to pull image %q: %w" [ref] e)).
    split; [| reflexivity].
    unfold f, Pull_attempt. simpl. rewrite He, IsNotFound_ErrorfW, Hne. reflexivity. }
  exists errs. split; [exact Hlen |].
  unfold Pull, retry.Retry. fold f. rewrite Hrun. simpl.
  rewrite (run_abort f (budget - k) k errs
             (unexpectedError (ErrorfW "failed to pull image %q: %w" [ref] err))).
  - reflexivity.
  - unfold f, Pull_attempt. rewrite Hc, IsNotFound_ErrorfW, Hnf. reflexivity.
  - reflexivity.
Qed.

(** The function [Import] retries never returns an unexpected error: a
    failure of [importer.Import] comes back wrapped twice as expected. *)
Lemma Import_attempt_expected (imported : option error) :
  Import_attempt imported
  = match imported with
    | None => None
    | Some err => Some (expectedError (expectedError err))
    end.
Proof. destruct imported as [err |]; reflexivity. Qed.

(** C7, at the failing input. When [importer.Import] reports that the image
    file does not exist, the function [Import] retries returns that error as
    an expected one, and the loop keeps calling until it times out. *)
Theorem Import_missing_file_is_retried (budget : nat) :
  let missing := PathError "open" "/usr/images/kubelet.tar" (Errno ENOENT) in
  os_IsNotExist missing = true /\
  Import_attempt (Some missing) = Some (expectedError (expectedError missing)) /\
  retry.retryable (expectedError (expectedError missing)) = true /\
  Import (fun _ => Some missing) budget
  = retry.TimedOut (repeat (expectedError (expectedError missing)) (S budget)).
Proof.
  intros missing. repeat split.
  unfold Import, retry.Retry.
  apply (run_always_expected _ (expectedError (expectedError missing)));
    [intros c; apply Import_attempt_expected | reflexivity].
Qed.

(** C8, as the claim states it, fails: the retryer of [Pull] has no jitter. *)
Lemma Pull_retryer_not_jittered :
  retry.Jitter (retry.options Pull_retryer) = 0 /\
  retry.jittered Pull_retryer = false.
Proof. split; reflexivity. Qed.

(** C8, amended. [Pull] and [Import] both retry with exponential back-off in
    units of five seconds, bounded by a total time of twenty minutes for
    [Pull] and five minutes for [Import]; [Import] adds a jitter below one
    second to each wait, and [Pull] sets no jitter, so its waits have no
    random part. *)
Theorem image_retry_policies :
  (retry.kind Pull_retryer = retry.exponentialRetryer /\
   retry.duration Pull_retryer = 20 * Minute /\
   retry.Units (retry.options Pull_retryer) = 5 * Second /\
   retry.jittered Pull_retryer = false /\
   forall rnd, retry.ticker_Jitter (retry.options Pull_retryer) rnd = 0) /\
  (retry.kind Import_retryer = retry.exponentialRetryer /\
   retry.duration Import_retryer = 5 * Minute /\
   retry.Units (retry.options Import_retryer) = 5 * Second /\
   retry.jittered Import_retryer = true /\
   forall rnd, 0 <= retry.ticker_Jitter (retry.options Import_retryer) rnd < Second) /\
  20 * Minute = 1200000000000 /\ 5 * Minute = 300000000000 /\
  5 * Second = 5000000000.
Proof.
  split; [| split].
  - repeat split; try reflexivity.
  - repeat split; try reflexivity;
      change (retry.ticker_Jitter (retry.options Import_retryer) rnd)
        with (rnd mod 1000000000);
      change Second with 1000000000;
      apply (Z.mod_pos_bound rnd 1000000000 eq_refl).
  - repeat split; reflexivity.
Qed.

End ImageClaims.

(** * Further properties of the embedded code *)

(** ** Sequences *)

Section SequenceExtras.

(** X1. Printing after parsing: when [ParseSequence] accepts a string, the
    [String()] of the sequence it returns is that same string. *)
Theorem String_of_parsed (s : string) (seq : Sequence) :
  ParseSequence s = (seq, None) -> Sequence_String seq = Ok s.
Proof.
  intros Hparse.
  destruct (ParseSequence_cases s) as [[_ [seq' [_ [Hstr Heq]]]] | [_ Heq]];
    rewrite Heq in Hparse; inversion Hparse; subst.
  exact Hstr.
Qed.

(** Parsing "upgrade" and printing the result. *)
Lemma String_of_parsed_witness :
  ParseSequence "upgrade" = (SequenceUpgrade, None) /\
  Sequence_String SequenceUpgrade = Ok "upgrade".
Proof.
  split; [reflexivity |].
  exact (String_of_parsed "upgrade" SequenceUpgrade eq_refl).
Defined.

(** A sequence whose [String()] returns is in the enumeration. *)
Lemma Sequence_String_Ok_valid (s : Sequence) (str : string) :
  Sequence_String s = Ok str -> valid s.
Proof.
  intros Hok.
  destruct (Z_le_dec SequenceApplyConfiguration s) as [H0 | H0];
    [destruct (Z_le_dec s SequenceNoop) as [H1 | H1] |];
    try (split; assumption);
    rewrite Sequence_String_invalid in Hok by (unfold valid; lia);
    discriminate Hok.
Qed.

(** X2. No two sequences print the same: if [String()] returns the same
    string for two sequences, they are the same sequence. *)
Theorem Sequence_String_injective (a b : Sequence) (str : string) :
  Sequence_String a = Ok str -> Sequence_String b = Ok str -> a = b.
Proof.
  intros Ha Hb.
  pose proof (Sequence_String_Ok_valid a str Ha) as Va.
  pose proof (Sequence_String_Ok_valid b str Hb) as Vb.
  rewrite <- Hb in Ha. clear Hb.
  apply valid_cases in Va. apply valid_cases in Vb.
  repeat (destruct Va as [Va | Va]);
    repeat (destruct Vb as [Vb | Vb]);
    subst a b; try reflexivity; vm_compute in Ha; discriminate Ha.
Qed.

(** Both lookups at [SequenceReset]. *)
Lemma Sequence_String_injective_witness :
  Sequence_String SequenceReset = Ok "reset" /\ SequenceReset = 7.
Proof.
  split; [reflexivity |].
  exact (Sequence_String_injective SequenceReset 7 "reset" eq_refl eq_refl).
Defined.

(** X3. [ParseSequence] returns a [nil] error exactly for the eleven strings
    of the table, and for those the sequence it returns is in the
    enumeration. *)
Theorem ParseSequence_succeeds_iff (s : string) :
  (snd (ParseSequence s) = None <-> In s identifiers) /\
  (In s identifiers -> valid (fst (ParseSequence s))).
Proof.
  destruct (ParseSequence_cases s) as [[Hin [seq [Hv [_ Heq]]]] | [Hnot Heq]];
    rewrite Heq; simpl.
  - split; [split; auto | auto].
  - split; [split; [discriminate | contradiction] | contradiction].
Qed.

End SequenceExtras.

(** ** The retry loop, [Pull] and [Import] as a whole *)

Import calls.

Section RetryOutcome.

Variable f : nat -> option error.

(** What each way of ending the loop says about the calls made. *)
Lemma run_outcome (budget : nat) :
  forall c errs,
    match retry.run f budget c errs with
    | retry.Succeeded k =>
        (c <= k <= c + budget)%nat /\ f k = None /\ expected_between f c k
    | retry.Aborted es =>
        exists k e,
          (c <= k <= c + budget)%nat /\ f k = Some e /\
          retry.retryable e = false /\ expected_between f c k /\
          length es = (length errs + (k - c) + 1)%nat
    | retry.TimedOut es =>
        expected_between f c (c + budget + 1) /\
        length es = (length errs + budget + 1)%nat
    end.
Proof.
  induction budget as [| b IH]; intros c errs.
  - simpl. destruct (f c) as [e |] eqn:Hc.
    + destruct (retry.retryable e) eqn:Hr.
      * split.
        -- intros i Hi. assert (i = c) by lia. subst i. eauto.
        -- rewrite length_app. simpl. lia.
      * exists c, e. repeat split; try lia; try assumption.
        -- intros i Hi. lia.
        -- rewrite length_app. simpl. lia.
    + repeat split; try lia; try assumption. intros i Hi. lia.
  - simpl. destruct (f c) as [e |] eqn:Hc.
    + destruct (retry.retryable e) eqn:Hr.
      * specialize (IH (S c) (errs ++ [e])%list).
        assert (Hstep : forall k, expected_between f (S c) k -> expected_between f c k).
        { intros k Hk i Hi. destruct (Nat.eq_dec i c) as [-> | Hne]; [eauto |].
          apply Hk. lia. }
        destruct (retry.run f b (S c) (errs ++ [e])) as [k | es | es].
        -- destruct IH as [Hk [Hfk Hex]]. repeat split; try lia; auto.
        -- destruct IH as [k [e' [Hk [Hfk [Hr' [Hex Hlen]]]]]].
           exists k, e'. repeat split; try lia; auto.
           rewrite Hlen, length_app. simpl. lia.
        -- destruct IH as [Hex Hlen]. split.
           ++ apply Hstep. replace (c + S b + 1)%nat with (S c + b + 1)%nat by lia.
              exact Hex.
           ++ rewrite Hlen, length_app. simpl. lia.
      * exists c, e. repeat split; try lia; try assumption.
        -- intros i Hi. lia.
        -- rewrite length_app. simpl. lia.
    + repeat split; try lia; try assumption. intros i Hi. lia.
Qed.

End RetryOutcome.

Section ImageExtras.

(** What the function retried by [Pull] returns, by the result of
    [client.Pull]. *)
Lemma Pull_attempt_cases (Image : Type) (ref : string) (pulled : Image + error) :
  match pulled with
  | inl _ => Pull_attempt ref pulled = None
  | inr err =>
      exists e, Pull_attempt ref pulled = Some e /\
                retry.retryable e = negb (errdefs_IsNotFound err)
  end.
Proof.
  destruct pulled as [img | err]; [reflexivity |].
  unfold Pull_attempt. rewrite IsNotFound_ErrorfW.
  destruct (errdefs_IsNotFound err); eexists; split; reflexivity.
Qed.

(** X4. [Pull] ends in exactly one of three ways, decided by the first call of
    [client.Pull] that does not fail with a transient error: if that call
    succeeds, its image is returned with no error; if it fails with "not
    found", no image is returned and the loop is aborted; and if there is no
    such call among the [budget + 1] calls the timeout allows, no image is
    returned and the loop times out.  An image is returned only on
    success. *)
Theorem Pull_outcomes (Image : Type) (client : nat -> Image + error)
    (ref : string) (budget : nat) :
  (exists k img,
      (k <= budget)%nat /\ transient_before client k /\ client k = inl img /\
      Pull client ref budget = (Some img, retry.Succeeded k)) \/
  (exists k err errs,
      (k <= budget)%nat /\ transient_before client k /\ client k = inr err /\
      errdefs_IsNotFound err = true /\ length errs = S k /\
      Pull client ref budget = (None, retry.Aborted errs)) \/
  (exists errs,
      transient_before client (S budget) /\ length errs = S budget /\
      Pull client ref budget = (None, retry.TimedOut errs)).
Proof.
  set (f := fun n => Pull_attempt ref (client n)).
  assert (Htrans : forall k, expected_between f 0 k -> transient_before client k).
  { intros k Hk i Hi. destruct (Hk i ltac:(lia)) as [e [He Hr]].
    unfold f in He. pose proof (Pull_attempt_cases Image ref (client i)) as Hc.
    destruct (client i) as [img | err]; [congruence |].
    destruct Hc as [e' [He' Hr']]. exists err. split; [reflexivity |].
    rewrite He in He'. inversion He'; subst e'. rewrite Hr in Hr'.
    destruct (errdefs_IsNotFound err); [discriminate | reflexivity]. }
  pose proof (run_outcome f budget 0%nat []) as Hout.
  unfold Pull, retry.Retry. fold f.
  destruct (retry.run f budget 0 []) as [k | es | es].
  - destruct Hout as [Hk [Hfk Hex]]. left.
    unfold f in Hfk. pose proof (Pull_attempt_cases Image ref (client k)) as Hc.
    destruct (client k) as [img | err] eqn:Hck.
    + exists k, img. repeat split; try lia; auto.
    + destruct Hc as [e [He _]]. congruence.
  - destruct Hout as [k [e [Hk [Hfk [Hr [Hex Hlen]]]]]]. right; left.
    unfold f in Hfk. pose proof (Pull_attempt_cases Image ref (client k)) as Hc.
    destruct (client k) as [img | err] eqn:Hck; [congruence |].
    destruct Hc as [e' [He' Hr']]. rewrite Hfk in He'. inversion He'; subst e'.
    exists k, err, es. repeat split; try lia; auto.
    + rewrite Hr in Hr'. destruct (errdefs_IsNotFound err); [reflexivity | discriminate].
    + rewrite Hlen. simpl. lia.
  - destruct Hout as [Hex Hlen]. right; right.
    exists es. repeat split.
    + apply Htrans. replace (S budget) with (0 + budget + 1)%nat by lia. exact Hex.
    + rewrite Hlen. simpl. lia.
Qed.

(** X5. [Import] ends in exactly one of two ways: the first call of
    [importer.Import] that returns [nil], if it is among the [budget + 1] calls
    the timeout allows, ends it with success; otherwise it times out after
    [budget + 1] calls.  No error of [importer.Import], of whatever kind,
    aborts the loop. *)
Theorem Import_outcomes (importer : nat -> option error) (budget : nat) :
  (exists k,
      (k <= budget)%nat /\ importer k = None /\
      (forall i, (i < k)%nat -> importer i <> None) /\
      Import importer budget = retry.Succeeded k) \/
  (exists errs,
      (forall i, (i <= budget)%nat -> importer i <> None) /\
      length errs = S budget /\
      Import importer budget = retry.TimedOut errs).
Proof.
  set (f := fun n => Import_attempt (importer n)).
  assert (Hnil : forall n, f n = None <-> importer n = None).
  { intros n. unfold f. rewrite Import_attempt_expected.
    destruct (importer n); split; congruence. }
  assert (Hexp : forall n e, f n = Some e -> retry.retryable e = true).
  { intros n e. unfold f. rewrite Import_attempt_expected.
    destruct (importer n); [| discriminate].
    intros H. inversion H. reflexivity. }
  pose proof (run_outcome f budget 0%nat []) as Hout.
  unfold Import, retry.Retry. fold f.
  destruct (retry.run f budget 0 []) as [k | es | es].
  - destruct Hout as [Hk [Hfk Hex]]. left. exists k.
    repeat split; try lia.
    + apply Hnil. exact Hfk.
    + intros i Hi Hnone. apply Hnil in Hnone.
      destruct (Hex i ltac:(lia)) as [e [He _]]. congruence.
  - destruct Hout as [k [e [_ [Hfk [Hr _]]]]].
    rewrite (Hexp k e Hfk) in Hr. discriminate Hr.
  - destruct Hout as [Hex Hlen]. right. exists es. repeat split.
    + intros i Hi Hnone. apply Hnil in Hnone.
      destruct (Hex i ltac:(lia)) as [e [He _]]. congruence.
    + rewrite Hlen. simpl. lia.
Qed.

End ImageExtras.

(** ** The certificate names of trustd *)

Section TrustdExtras.

Variable IP : Type.
Variable ParseIP : string -> option IP.

(** X6. The loop over the configured certificate SANs drops and duplicates
    nothing: it keeps the addresses and names found beforehand, appends the
    SANs that parse as IP addresses to the addresses and all the others to the
    DNS names, each in the order of the configuration. *)
Theorem add_cert_sans_partition (sans : list string) :
  forall (ips : list IP) (dnsNames : list string),
    let addresses :=
      flat_map (fun san => match ParseIP san with Some ip => [ip] | None => [] end) sans in
    let names :=
      filter (fun san => match ParseIP san with Some _ => false | None => true end) sans in
    trustd.add_cert_sans ParseIP sans ips dnsNames
    = ((ips ++ addresses)%list, (dnsNames ++ names)%list) /\
    (length addresses + length names = length sans)%nat.
Proof.
  induction sans as [| san rest IH]; intros ips dnsNames; simpl.
  - rewrite !app_nil_r. split; reflexivity.
  - destruct (ParseIP san) as [ip |]; simpl.
    + destruct (IH (ips ++ [ip])%list dnsNames) as [Heq Hlen].
      simpl in Heq, Hlen. rewrite Heq, <- app_assoc. simpl.
      split; [reflexivity | lia].
    + destruct (IH ips (dnsNames ++ [san])%list) as [Heq Hlen].
      simpl in Heq, Hlen. rewrite Heq, <- app_assoc. simpl.
      split; [reflexivity | lia].
Qed.

End TrustdExtras.

(** ** The client configuration *)

Module ConfigFacts.

Import stdpp.base stdpp.option stdpp.list stdpp.strings stdpp.gmap stdpp.fin_maps.
Import config.

(** Upgrading a context twice is upgrading it once. *)
Lemma Context_upgrade_idemp (c : Context) :
  Context_upgrade (Context_upgrade c) = Context_upgrade c.
Proof.
  unfold Context_upgrade.
  destruct (String.eqb (DeprecatedTarget c) "") eqn:E; simpl.
  - rewrite E. reflexivity.
  - reflexivity.
Qed.

(** X7. Upgrading a context moves a non-empty deprecated target to the end
    of the endpoints and clears it, leaves a context without a deprecated
    target as it is, never touches the other fields, and is idempotent. *)
Theorem Context_upgrade_moves_target (c : Context) :
  DeprecatedTarget (Context_upgrade c) = "" /\
  Endpoints (Context_upgrade c)
  = Endpoints c ++ (if String.eqb (DeprecatedTarget c) "" then []
                    else [DeprecatedTarget c]) /\
  (Nodes (Context_upgrade c), CA (Context_upgrade c),
   Crt (Context_upgrade c), Key (Context_upgrade c))
  = (Nodes c, CA c, Crt c, Key c) /\
  Context_upgrade (Context_upgrade c) = Context_upgrade c.
Proof.
  split; [| split; [| split]].
  - unfold Context_upgrade.
    destruct (String.eqb_spec (DeprecatedTarget c) ""); simpl; auto.
  - unfold Context_upgrade.
    destruct (String.eqb (DeprecatedTarget c) ""); simpl; [| reflexivity].
    symmetry. apply app_nil_r.
  - unfold Context_upgrade.
    destruct (String.eqb (DeprecatedTarget c) ""); reflexivity.
  - apply Context_upgrade_idemp.
Qed.

(** The loop of [Config.upgrade] over a map without [nil] contexts. *)
Lemma upgrade_loop (h : gmap positive Context) (m : gmap string (option positive)) :
  (forall name, m !! name <> Some None) ->
  exists h',
    map_fold upgrade_step (Done h) m = Done h' /\
    forall l,
      (referenced m l -> h' !! l = Context_upgrade <$> h !! l) /\
      (~ referenced m l -> h' !! l = h !! l) /\
      (h' !! l = h !! l \/ h' !! l = Context_upgrade <$> h !! l).
Proof.
  apply (map_fold_weak_ind
           (fun r m =>
              (forall name, m !! name <> Some None) ->
              exists h',
                r = Done h' /\
                forall l,
                  (referenced m l -> h' !! l = Context_upgrade <$> h !! l) /\
                  (~ referenced m l -> h' !! l = h !! l) /\
                  (h' !! l = h !! l \/ h' !! l = Context_upgrade <$> h !! l))).
  - intros _. exists h. split; [reflexivity |]. intros l. repeat split; auto.
    intros [name Hname]. rewrite lookup_empty in Hname. discriminate.
  - intros i x m' r Hi IH Hnonil.
    destruct IH as [hr [-> Hr]].
    { intros name Hname. apply (Hnonil name).
      destruct (decide (i = name)) as [-> | Hne]; [congruence |].
      rewrite lookup_insert_ne by done. exact Hname. }
    destruct x as [l0 |].
    2:{ exfalso. apply (Hnonil i). apply lookup_insert_eq. }
    simpl. eexists. split; [reflexivity |]. intros l.
    destruct (decide (l0 = l)) as [<- | Hne].
    + rewrite lookup_alter_eq.
      assert (Hup : Context_upgrade <$> hr !! l0 = Context_upgrade <$> h !! l0).
      { destruct (Hr l0) as [_ [_ [-> | ->]]]; [reflexivity |].
        destruct (h !! l0); simpl; [| reflexivity].
        f_equal. apply Context_upgrade_idemp. }
      repeat split; auto.
      intros Hnot. exfalso. apply Hnot. exists i. apply lookup_insert_eq.
    + rewrite lookup_alter_ne by done.
      destruct (Hr l) as [Href [Hnref Hor]].
      repeat split; auto.
      * intros [name Hname]. apply Href.
        destruct (decide (i = name)) as [-> | Hin].
        -- rewrite lookup_insert_eq in Hname. congruence.
        -- rewrite lookup_insert_ne in Hname by done. exists name. exact Hname.
      * intros Hnot. apply Hnref. intros [name Hname]. apply Hnot.
        exists name. rewrite lookup_insert_ne; [exact Hname | congruence].
Qed.

(** X8. When no context of the map is [nil], [Config.upgrade] does not panic;
    it upgrades in the store every context the map refers to, once however
    many names refer to it, and leaves every other struct of the store
    untouched. *)
Theorem Config_upgrade_upgrades_referenced (c : Config) (h : gmap positive Context) :
  (forall name, entries (Contexts c) !! name <> Some None) ->
  exists h',
    Config_upgrade c h = Done h' /\
    forall l,
      (referenced (entries (Contexts c)) l -> h' !! l = Context_upgrade <$> h !! l) /\
      (~ referenced (entries (Contexts c)) l -> h' !! l = h !! l).
Proof.
  intros Hnonil.
  destruct (upgrade_loop h (entries (Contexts c)) Hnonil) as [h' [Hfold Hl]].
  exists h'. split; [exact Hfold |].
  intros l. destruct (Hl l) as [Href [Hnref _]]. split; assumption.
Qed.

(** Two names for one context with a deprecated target, beside a context no
    name refers to. *)
Lemma Config_upgrade_upgrades_referenced_witness :
  let old := {| DeprecatedTarget := "10.5.0.2"; Endpoints := []; Nodes := [];
                CA := ""; Crt := ""; Key := "" |} in
  let c := {| Config_Context := "default";
              Contexts := Some (<["default" := Some 1%positive]>
                                  (<["alias" := Some 1%positive]> ∅)) |} in
  let h : gmap positive Context := <[1%positive := old]> (<[2%positive := old]> ∅) in
  (forall name, entries (Contexts c) !! name <> Some None) /\
  exists h',
    Config_upgrade c h = Done h' /\
    forall l,
      (referenced (entries (Contexts c)) l -> h' !! l = Context_upgrade <$> h !! l) /\
      (~ referenced (entries (Contexts c)) l -> h' !! l = h !! l).
Proof.
  intros old c h.
  assert (Hnonil : forall name, entries (Contexts c) !! name <> Some None).
  { intros name. simpl.
    rewrite lookup_insert. case_decide; [congruence |].
    rewrite lookup_insert. case_decide; [congruence |].
    rewrite lookup_empty. congruence. }
  split; [exact Hnonil | exact (Config_upgrade_upgrades_referenced c h Hnonil)].
Defined.

(** X9. [Config.upgrade] panics exactly when some name of the map holds a
    [nil] context, and then with a nil dereference. *)
Theorem Config_upgrade_panics_iff_nil (c : Config) (h : gmap positive Context) :
  ((exists name, entries (Contexts c) !! name = Some None) <->
   Config_upgrade c h = Panicked NilDereference) /\
  (forall p, Config_upgrade c h = Panicked p -> p = NilDereference).
Proof.
  unfold Config_upgrade.
  apply (map_fold_weak_ind
           (fun r m =>
              ((exists name, m !! name = Some None) <-> r = Panicked NilDereference) /\
              (forall p, r = Panicked p -> p = NilDereference))).
  - split; [split |].
    + intros [name Hname]. rewrite lookup_empty in Hname. discriminate.
    + discriminate.
    + discriminate.
  - intros i x m r Hi [[Hfwd Hbwd] Honly].
    assert (Hex : (exists name, <[i:=x]> m !! name = Some None) <->
                  x = None \/ exists name, m !! name = Some None).
    { split.
      - intros [name Hname]. destruct (decide (i = name)) as [-> | Hne].
        + rewrite lookup_insert_eq in Hname. left. congruence.
        + rewrite lookup_insert_ne in Hname by done. right. eauto.
      - intros [-> | [name Hname]].
        + exists i. apply lookup_insert_eq.
        + exists name. rewrite lookup_insert_ne; [exact Hname | congruence]. }
    rewrite Hex. clear Hex.
    destruct r as [hr | p]; simpl.
    + destruct x as [l |]; simpl.
      * split; [split |].
        -- intros [Hx | Hm]; [discriminate | apply Hfwd in Hm; discriminate].
        -- discriminate.
        -- discriminate.
      * split; [split |]; auto. intros p Hp. congruence.
    + pose proof (Honly p eq_refl) as ->.
      split; [split |]; auto.
Qed.

(** The loop of [Merge] into a map that is not [nil]: a union in which the
    entries of the merged configuration win. *)
Lemma merge_loop (m cm : gmap string (option positive)) :
  map_fold merge_step (Done (Some m)) cm = Done (Some (cm ∪ m)).
Proof.
  apply (map_fold_weak_ind (fun r cm => r = Done (Some (cm ∪ m)))).
  - rewrite (left_id_L ∅ (∪)). reflexivity.
  - intros i x cm' r Hi ->. simpl. rewrite insert_union_l. reflexivity.
Qed.

(** The loop of [Merge] into a [nil] map. *)
Lemma merge_loop_nil (cm : gmap string (option positive)) :
  (cm = ∅ /\ map_fold merge_step (Done None) cm = Done None) \/
  (cm <> ∅ /\ map_fold merge_step (Done None) cm = Panicked NilMapAssignment).
Proof.
  apply (map_fold_weak_ind
           (fun r cm => (cm = ∅ /\ r = Done None) \/
                        (cm <> ∅ /\ r = Panicked NilMapAssignment))).
  - left. split; reflexivity.
  - intros i x cm' r Hi [[_ ->] | [_ ->]]; right; split;
      try reflexivity; apply insert_non_empty.
Qed.

Lemma Merge_Some (c cfg : Config) (m : gmap string (option positive)) :
  Contexts c = Some m ->
  Merge c cfg = Done {| Config_Context := merged_context c cfg;
                        Contexts := Some (entries (Contexts cfg) ∪ m) |}.
Proof.
  intros Hm. unfold Merge, merged_context. rewrite Hm, merge_loop.
  destruct (String.eqb (Config_Context cfg) ""); reflexivity.
Qed.

(** X10. Merging into a configuration whose map of contexts is not [nil]
    never panics.  Afterwards a name of the merged-in configuration maps to
    that configuration's context (the same pointer, so the struct is shared),
    any other name keeps its context, and the current context is the
    merged-in one unless that is empty. *)
Theorem Merge_contexts (c cfg : Config) (m : gmap string (option positive)) :
  Contexts c = Some m ->
  exists r mr,
    Merge c cfg = Done r /\ Contexts r = Some mr /\
    (forall name,
        mr !! name = match entries (Contexts cfg) !! name with
                     | Some ctx => Some ctx
                     | None => m !! name
                     end) /\
    Config_Context r
    = (if String.eqb (Config_Context cfg) "" then Config_Context c
       else Config_Context cfg).
Proof.
  intros Hm. eexists. eexists.
  split; [apply (Merge_Some c cfg m Hm) |].
  split; [reflexivity |]. split; [| reflexivity].
  intros name. rewrite lookup_union.
  destruct (entries (Contexts cfg) !! name); simpl.
  - destruct (m !! name); reflexivity.
  - destruct (m !! name); reflexivity.
Qed.

(** Merging "staging" over "default", both held by the target. *)
Lemma Merge_contexts_witness :
  let c := {| Config_Context := "default";
              Contexts := Some (<["default" := Some 1%positive]>
                                  (<["staging" := Some 2%positive]> ∅)) |} in
  let cfg := {| Config_Context := "";
                Contexts := Some (<["staging" := Some 7%positive]> ∅) |} in
  exists r mr,
    Merge c cfg = Done r /\ Contexts r = Some mr /\
    (forall name,
        mr !! name = match entries (Contexts cfg) !! name with
                     | Some ctx => Some ctx
                     | None => entries (Contexts c) !! name
                     end) /\
    Config_Context r
    = (if String.eqb (Config_Context cfg) "" then Config_Context c
       else Config_Context cfg).
Proof.
  intros c cfg. exact (Merge_contexts c cfg _ eq_refl).
Defined.

(** X11. Merging into a configuration whose map of contexts is [nil] panics
    exactly when the merged-in configuration has a context; when it has none,
    only the current context is merged. *)
Theorem Merge_into_nil_map (c cfg : Config) :
  Contexts c = None ->
  (entries (Contexts cfg) <> ∅ -> Merge c cfg = Panicked NilMapAssignment) /\
  (entries (Contexts cfg) = ∅ ->
   Merge c cfg = Done {| Config_Context := merged_context c cfg; Contexts := None |}).
Proof.
  intros Hnil. unfold Merge, merged_context. rewrite Hnil.
  destruct (merge_loop_nil (entries (Contexts cfg))) as [[He ->] | [Hne ->]].
  - split; [intros H; contradiction |]. intros _.
    destruct (String.eqb (Config_Context cfg) ""); reflexivity.
  - split; [reflexivity | intros H; contradiction].
Qed.

(** A configuration decoded without a [contexts] key, merged with one that has
    a context and with one that has none. *)
Lemma Merge_into_nil_map_witness :
  let c := {| Config_Context := "default"; Contexts := None |} in
  let one := {| Config_Context := "prod";
                Contexts := Some (<["prod" := Some 3%positive]> ∅) |} in
  let none := {| Config_Context := "prod"; Contexts := Some ∅ |} in
  Merge c one = Panicked NilMapAssignment /\
  Merge c none = Done {| Config_Context := "prod"; Contexts := None |}.
Proof.
  intros c one none. split.
  - apply (Merge_into_nil_map c one eq_refl). apply insert_non_empty.
  - apply (Merge_into_nil_map c none eq_refl). reflexivity.
Defined.

(** X12. Merging is associative: for configurations [a] and [b] whose maps
    are not [nil], merging [b] and then [c] into [a] gives what merging into
    [a] the result of merging [c] into [b] gives. *)
Theorem Merge_assoc (a b c : Config) (ma mb : gmap string (option positive)) :
  Contexts a = Some ma -> Contexts b = Some mb ->
  exists ab bc r,
    Merge a b = Done ab /\ Merge ab c = Done r /\
    Merge b c = Done bc /\ Merge a bc = Done r.
Proof.
  intros Ha Hb.
  eexists. eexists. eexists.
  split; [apply (Merge_Some a b ma Ha) |].
  split; [apply Merge_Some; reflexivity |].
  split; [apply (Merge_Some b c mb Hb) |].
  rewrite (Merge_Some a _ ma Ha).
  unfold merged_context, entries. simpl. rewrite Hb. simpl.
  rewrite (assoc_L (∪)).
  destruct (String.eqb_spec (Config_Context c) "") as [Hc | Hc];
    destruct (String.eqb_spec (Config_Context b) "") as [Hb' | Hb'];
    try reflexivity;
    apply String.eqb_neq in Hc; rewrite Hc; reflexivity.
Qed.

(** Three configurations, the last with a [nil] map of contexts. *)
Lemma Merge_assoc_witness :
  let a := {| Config_Context := "a";
              Contexts := Some (<["x" := Some 1%positive]> ∅) |} in
  let b := {| Config_Context := "";
              Contexts := Some (<["x" := Some 2%positive]>
                                  (<["y" := Some 3%positive]> ∅)) |} in
  let c := {| Config_Context := "c"; Contexts := None |} in
  exists ab bc r,
    Merge a b = Done ab /\ Merge ab c = Done r /\
    Merge b c = Done bc /\ Merge a bc = Done r.
Proof.
  intros a b c. exact (Merge_assoc a b c _ _ eq_refl eq_refl).
Defined.

End ConfigFacts.

(** ** The list command of talosctl *)

Section ListFacts.

Import text talosctl.

(** A step never clears [multipleNodes], and sets it exactly on a host name. *)
Lemma short_step_multipleNodes (mn : bool) (node : string) (info : FileInfo) :
  fst (fst (short_step mn node info))
  = mn || match hostname info with Some _ => true | None => false end.
Proof.
  unfold short_step.
  destruct (hostname info) as [h |]; simpl;
    destruct (metadata_error info); simpl;
    try (destruct (negb (FileInfo_Error info =? "")%string); simpl);
    try (destruct mn; reflexivity);
    try (destruct (negb mn); simpl);
    try (destruct mn; reflexivity); reflexivity.
Qed.

(** What the short loop returns, from any state. *)
Lemma short_loop_returns (infos : list FileInfo) (last : recv_error) :
  forall mn node,
    snd (short_loop infos last mn node)
    = if end_of_stream last then
        if mn || existsb (fun info => match hostname info with
                                      | Some _ => true
                                      | None => false
                                      end) infos
        then ReturnFlush else ReturnNil
      else ReturnError "error streaming results: %s" last.
Proof.
  induction infos as [| info rest IH]; intros mn node; simpl.
  - rewrite orb_false_r. destruct (end_of_stream last), mn; reflexivity.
  - pose proof (short_step_multipleNodes mn node info) as Hmn.
    destruct (short_step mn node info) as [[mn' node'] ev]. simpl in Hmn.
    specialize (IH mn' node').
    destruct (short_loop rest last mn' node') as [evs r]. simpl in *.
    rewrite IH, Hmn, orb_assoc. reflexivity.
Qed.

(** The short loop writes once for each message. *)
Lemma short_loop_length (infos : list FileInfo) (last : recv_error) :
  forall mn node, length (fst (short_loop infos last mn node)) = length infos.
Proof.
  induction infos as [| info rest IH]; intros mn node; simpl.
  { destruct (end_of_stream last), mn; reflexivity. }
  destruct (short_step mn node info) as [[mn' node'] ev].
  specialize (IH mn' node').
  destruct (short_loop rest last mn' node') as [evs r]. simpl in *.
  rewrite IH. reflexivity.
Qed.

(** X13. The short listing writes the table header and then exactly once for
    each message received.  When the stream ends with [io.EOF] or a
    [Canceled] status, it returns the result of flushing the table if some
    message carried a host name and [nil], without flushing, otherwise; when
    the stream ends with any other error, it returns "error streaming
    results" and never flushes. *)
Theorem list_short_returns (defaultNode : string) (infos : list FileInfo)
    (last : recv_error) :
  length (fst (list_short defaultNode infos last)) = S (length infos) /\
  snd (list_short defaultNode infos last)
  = if end_of_stream last then
      if existsb (fun info => match hostname info with
                              | Some _ => true
                              | None => false
                              end) infos
      then ReturnFlush else ReturnNil
    else ReturnError "error streaming results: %s" last.
Proof.
  unfold list_short.
  pose proof (short_loop_returns infos last false defaultNode) as Hr.
  pose proof (short_loop_length infos last false defaultNode) as Hl.
  destruct (short_loop infos last false defaultNode) as [evs r]. simpl in *.
  split; [rewrite Hl; reflexivity | exact Hr].
Qed.

(** X14. When no message carries a host name, the short listing prints the
    relative name of each message directly to standard output, in order,
    reports the messages with an error on standard error under the default
    node, and writes nothing but the header into the table. *)
Theorem list_short_single_node (defaultNode : string) (infos : list FileInfo)
    (last : recv_error) :
  (forall info, In info infos -> hostname info = None) ->
  fst (list_short defaultNode infos last)
  = Table ("NODE" ++ tab ++ "NAME" ++ nl) :: map (plain_line defaultNode) infos.
Proof.
  intros Hnone. unfold list_short.
  assert (Hloop : fst (short_loop infos last false defaultNode)
                  = map (plain_line defaultNode) infos).
  { induction infos as [| info rest IH]; simpl.
    { destruct (end_of_stream last); reflexivity. }
    assert (Hstep : short_step false defaultNode info
                    = (false, defaultNode, plain_line defaultNode info)).
    { unfold short_step, plain_line. rewrite (Hnone info) by (left; reflexivity).
      destruct (metadata_error info); [reflexivity |].
      destruct (negb (FileInfo_Error info =? "")%string); reflexivity. }
    rewrite Hstep.
    specialize (IH (fun i Hi => Hnone i (or_intror Hi))).
    destruct (short_loop rest last false defaultNode) as [evs r]. simpl in *.
    rewrite IH. reflexivity. }
  destruct (short_loop infos last false defaultNode) as [evs r]. simpl in *.
  rewrite Hloop. reflexivity.
Qed.

(** Two files and a file that could not be read, from one node. *)
Lemma list_short_single_node_witness :
  let file name err :=
    {| FileInfo_Metadata := None; Name := name; Size := 0; Mode := 420;
       Modified := 0; FileInfo_Error := err; Link := ""; RelativeName := name |} in
  let infos := [file "etc" ""; file "etc/shadow" "permission denied"; file "var" ""] in
  (forall info, In info infos -> hostname info = None) /\
  fst (list_short "10.5.0.2" infos io_EOF)
  = [Table ("NODE" ++ tab ++ "NAME" ++ nl);
     Stdout ("etc" ++ nl);
     Stderr ("10.5.0.2: error reading file etc/shadow: permission denied" ++ nl);
     Stdout ("var" ++ nl)].
Proof.
  intros file infos.
  assert (Hnone : forall info, In info infos -> hostname info = None).
  { intros info [<- | [<- | [<- | []]]]; reflexivity. }
  split; [exact Hnone |].
  rewrite (list_short_single_node "10.5.0.2" infos io_EOF Hnone). reflexivity.
Defined.

(** With [multipleNodes] set, a step keeps it set and writes nothing directly
    to standard output. *)
Lemma short_step_multiple (node : string) (info : FileInfo) :
  fst (fst (short_step true node info)) = true /\
  is_stdout (snd (short_step true node info)) = false.
Proof.
  unfold short_step.
  destruct (hostname info); destruct (metadata_error info); simpl;
    try (destruct (negb (FileInfo_Error info =? "")%string); simpl);
    split; reflexivity.
Qed.

(** A step on a message with a host name sets [multipleNodes] and writes
    nothing directly to standard output. *)
Lemma short_step_hostname (mn : bool) (node h : string) (info : FileInfo) :
  hostname info = Some h ->
  fst (fst (short_step mn node info)) = true /\
  is_stdout (snd (short_step mn node info)) = false.
Proof.
  intros Hh. unfold short_step. rewrite Hh.
  destruct (metadata_error info); simpl;
    try (destruct (negb (FileInfo_Error info =? "")%string); simpl);
    split; reflexivity.
Qed.

(** With [multipleNodes] set, the loop writes nothing directly to standard
    output. *)
Lemma short_loop_multiple (infos : list FileInfo) (last : recv_error) :
  forall node,
    forallb (fun ev => negb (is_stdout ev)) (fst (short_loop infos last true node))
    = true.
Proof.
  induction infos as [| info rest IH]; intros node; simpl.
  { destruct (end_of_stream last); reflexivity. }
  destruct (short_step_multiple node info) as [Hmn Hev].
  destruct (short_step true node info) as [[mn' node'] ev]. simpl in *. subst mn'.
  specialize (IH node').
  destruct (short_loop rest last true node') as [evs r]. simpl in *.
  rewrite Hev, IH. reflexivity.
Qed.

(** X15. In the short listing, from the first message that carries a host
    name on, nothing is printed directly to standard output: that message and
    all later ones are written into the table or reported on standard error,
    whether or not the later ones carry a host name themselves. *)
Theorem list_short_after_hostname (defaultNode h : string)
    (pre post : list FileInfo) (m : FileInfo) (last : recv_error) :
  hostname m = Some h ->
  exists before after,
    fst (list_short defaultNode (pre ++ m :: post) last) = (before ++ after)%list /\
    length before = S (length pre) /\
    length after = S (length post) /\
    forallb (fun ev => negb (is_stdout ev)) after = true.
Proof.
  intros Hh.
  assert (Hloop : forall mn node,
             exists before after,
               fst (short_loop (pre ++ m :: post) last mn node)
               = (before ++ after)%list /\
               length before = length pre /\
               length after = S (length post) /\
               forallb (fun ev => negb (is_stdout ev)) after = true).
  { induction pre as [| info pre' IH]; intros mn node; simpl.
    - destruct (short_step_hostname mn node h m Hh) as [Hmn Hev].
      destruct (short_step mn node m) as [[mn' node'] ev]. simpl in *. subst mn'.
      pose proof (short_loop_multiple post last node') as Hno.
      pose proof (short_loop_length post last true node') as Hlen.
      destruct (short_loop post last true node') as [evs r]. simpl in *.
      exists [], (ev :: evs). simpl. rewrite Hev, Hno, Hlen. auto.
    - destruct (short_step mn node info) as [[mn' node'] ev].
      destruct (IH mn' node') as [before [after [Heq [Hb [Ha Hno]]]]].
      destruct (short_loop (pre' ++ m :: post) last mn' node') as [evs r].
      simpl in *. subst evs.
      exists (ev :: before), after. simpl. rewrite Hb. auto. }
  unfold list_short.
  destruct (Hloop false defaultNode) as [before [after [Heq [Hb [Ha Hno]]]]].
  destruct (short_loop (pre ++ m :: post) last false defaultNode) as [evs r].
  simpl in *. subst evs.
  exists (Table ("NODE" ++ tab ++ "NAME" ++ nl) :: before), after.
  simpl. rewrite Hb. auto.
Qed.

(** One file before the first message with a host name, one after it without
    a host name of its own. *)
Lemma list_short_after_hostname_witness :
  let file md name :=
    {| FileInfo_Metadata := md; Name := name; Size := 0; Mode := 420;
       Modified := 0; FileInfo_Error := ""; Link := ""; RelativeName := name |} in
  let worker := Some {| Hostname := "worker-1"; Metadata_Error := "" |} in
  fst (list_short "10.5.0.2" [file None "a"; file worker "b"; file None "c"] io_EOF)
  = [Table ("NODE" ++ tab ++ "NAME" ++ nl);
     Stdout ("a" ++ nl);
     Table ("worker-1" ++ tab ++ "b" ++ nl);
     Table ("worker-1" ++ tab ++ "c" ++ nl)] /\
  exists before after,
    fst (list_short "10.5.0.2" [file None "a"; file worker "b"; file None "c"] io_EOF)
    = (before ++ after)%list /\
    length before = 2%nat /\ length after = 2%nat /\
    forallb (fun ev => negb (is_stdout ev)) after = true.
Proof.
  intros file worker. split; [reflexivity |].
  exact (list_short_after_hostname "10.5.0.2" "worker-1"
           [file None "a"] [file None "c"] (file worker "b") io_EOF eq_refl).
Defined.

End ListFacts.

Section ListLongFacts.

Import text talosctl.

Variable FileMode_String : Z -> string.
Variable humanize_Bytes : Z -> string.
Variable humanize_Time : nat -> Z -> string.
Variable Format : string -> Z -> string.
Variable recent : nat -> Z -> bool.
Variable humanizeFlag : bool.

(** The long loop from iteration [i]. *)
Lemma long_loop_rows (defaultNode : string) (infos : list FileInfo) (last : recv_error) :
  forall i,
    long_loop FileMode_String humanize_Bytes humanize_Time Format recent
              humanizeFlag defaultNode infos last i
    = (map (fun p => long_step FileMode_String humanize_Bytes humanize_Time Format
                               recent humanizeFlag defaultNode (fst p) (snd p))
           (combine (seq i (length infos)) infos),
       if end_of_stream last then ReturnFlush
       else ReturnError "error streaming results: %s" last).
Proof.
  induction infos as [| info rest IH]; intros i; simpl.
  - destruct (end_of_stream last); reflexivity.
  - rewrite IH. reflexivity.
Qed.

(** X16. The long listing writes the table header and then, for each message
    in order, one table row or one line on standard error that depends on
    that message alone: a message without a host name is attributed to the
    default node whatever the messages before it carried.  When the stream
    ends with [io.EOF] or a [Canceled] status it returns the result of
    flushing the table; on any other error it returns "error streaming
    results" without flushing. *)
Theorem list_long_rows (defaultNode : string) (infos : list FileInfo)
    (last : recv_error) :
  list_long FileMode_String humanize_Bytes humanize_Time Format recent
            humanizeFlag defaultNode infos last
  = (Table ("NODE" ++ tab ++ "MODE" ++ tab ++ "SIZE(B)" ++ tab ++ "LASTMOD" ++ tab
            ++ "NAME" ++ nl)
     :: map (fun p => long_step FileMode_String humanize_Bytes humanize_Time Format
                                recent humanizeFlag defaultNode (fst p) (snd p))
            (combine (seq 0 (length infos)) infos),
     if end_of_stream last then ReturnFlush
     else ReturnError "error streaming results: %s" last) /\
  forall i info,
    hostname info = None ->
    exists line,
      long_step FileMode_String humanize_Bytes humanize_Time Format recent
                humanizeFlag defaultNode i info
      = Stderr (defaultNode ++ line) \/
      long_step FileMode_String humanize_Bytes humanize_Time Format recent
                humanizeFlag defaultNode i info
      = Table (defaultNode ++ line).
Proof.
  split.
  - unfold list_long. rewrite long_loop_rows. reflexivity.
  - intros i info Hh. unfold long_step. rewrite Hh.
    destruct (negb (FileInfo_Error info =? "")%string); [eexists; left; reflexivity |].
    destruct (metadata_error info); eexists; [left | right]; reflexivity.
Qed.

End ListLongFacts.

(** ** The command line of the qemu VM *)

Section QemuFacts.

Import text qemu.

(** Storing behind a prefix. *)
Lemma store_app (A : Type) (a b : list A) (j : nat) (x : A) :
  store (a ++ b) (length a + j) x
  = match store b j x with
    | Some b' => Some (a ++ b')%list
    | None => None
    end.
Proof.
  induction a as [| y a IH]; simpl.
  - destruct (store b j x); reflexivity.
  - rewrite IH. destruct (store b j x); reflexivity.
Qed.

(** Each image contributes two arguments. *)
Lemma flat_map_pflash_length (images : list string) :
  length (flat_map pflash_drive images) = (2 * length images)%nat.
Proof.
  induction images as [| image rest IH]; simpl; [reflexivity |].
  rewrite IH. lia.
Qed.

(** The loop from image [k] on, when the slots of the images before it are
    filled. *)
Lemma pflash_loop (images : list string) (m : nat) :
  forall k,
    (k + m = length images)%nat ->
    fold_left (pflash_step images) (seq k m)
              (Some (flat_map pflash_drive (firstn k images) ++ repeat "" (2 * m))%list)
    = Some (flat_map pflash_drive images).
Proof.
  induction m as [| m IH]; intros k Hk.
  - simpl. rewrite app_nil_r, Nat.add_0_r in *. subst k.
    rewrite firstn_all. reflexivity.
  - assert (Hlt : (k < length images)%nat) by lia.
    destruct (nth_error images k) as [image |] eqn:Hnth.
    2:{ apply nth_error_None in Hnth. lia. }
    assert (Hfirst : firstn (S k) images = (firstn k images ++ [image])%list).
    { clear - Hnth. revert k Hnth.
      induction images as [| y rest IHl]; intros [| k] Hnth; simpl in *;
        try discriminate.
      - inversion Hnth. reflexivity.
      - rewrite (IHl k Hnth). reflexivity. }
    assert (Hlen : length (flat_map pflash_drive (firstn k images)) = (2 * k)%nat).
    { rewrite flat_map_pflash_length, length_firstn. lia. }
    cbn [seq fold_left]. unfold pflash_step at 2. rewrite Hnth.
    replace (2 * S m)%nat with (S (S (2 * m))) by lia. cbn [repeat].
    replace (2 * k)%nat
      with (length (flat_map pflash_drive (firstn k images)) + 0)%nat at 1 by lia.
    rewrite store_app. cbn [store].
    replace (2 * k + 1)%nat
      with (length (flat_map pflash_drive (firstn k images)) + 1)%nat by lia.
    rewrite store_app. cbn [store].
    specialize (IH (S k) ltac:(lia)).
    rewrite Hfirst, flat_map_app in IH. simpl in IH.
    rewrite <- app_assoc in IH. simpl in IH.
    exact IH.
Qed.

(** The whole loop, from the slice of empty strings. *)
Lemma pflashArgs_filled (images : list string) :
  pflashArgs images = Some (flat_map pflash_drive images).
Proof.
  unfold pflashArgs.
  apply (pflash_loop images (length images) 0%nat). reflexivity.
Qed.

(** X17. The loop that fills [pflashArgs] by index never runs out of range and
    leaves no slot empty: the result is, for each pflash image in order, the
    pair "-drive", "file=<image>,format=raw,if=pflash". *)
Theorem pflashArgs_pairs (images : list string) :
  pflashArgs images = Some (flat_map pflash_drive images) /\
  length (flat_map pflash_drive images) = (2 * length images)%nat.
Proof.
  split; [apply pflashArgs_filled | apply flat_map_pflash_length].
Qed.

(** X18. [launchVM] never panics while building the command line.  It
    fails, before starting anything, exactly when the disk file cannot be
    opened or the GPT object cannot be created.  Otherwise it starts the
    configured executable with twenty-two leading arguments that end with
    "-machine" and the machine type (with ",accel=kvm" under KVM), then the
    pflash pairs, then the kernel, initrd and kernel arguments exactly when a
    kernel image is configured and the disk is not booted from: the
    partition table is unreadable or empty, or the bootloader is disabled. *)
Theorem launchVM_command (config : LaunchConfig) (forcePXE : bool)
    (probe : disk_probe) :
  match open_error probe, gpt_error probe with
  | Some err, _ =>
      launchVM config forcePXE probe
      = Failed (ErrorfW "failed to open disk file %w" [] err)
  | None, Some err =>
      launchVM config forcePXE probe
      = Failed (ErrorfW "error creating GPT object: %w" [] err)
  | None, None =>
      exists base kernel,
        launchVM config forcePXE probe
        = Exec (QemuExecutable config)
               (base ++ flat_map pflash_drive (PFlashImages config) ++ kernel)%list /\
        length base = 22%nat /\
        skipn 20 base
        = ["-machine";
           if EnableKVM config then MachineType config ++ ",accel=kvm"
           else MachineType config] /\
        kernel
        = if ((match read_error probe with Some _ => true | None => false end)
              || (partitions probe =? 0)%nat
              || negb (BootloaderEnabled config))
             && negb (KernelImagePath config =? "")%string
          then ["-kernel"; KernelImagePath config;
                "-initrd"; InitrdPath config;
                "-append"; KernelArgs config]
          else []
  end.
Proof.
  unfold launchVM.
  rewrite pflashArgs_filled.
  unfold checkPartitions.
  destruct (open_error probe) as [e1 |]; [reflexivity |].
  destruct (gpt_error probe) as [e2 |]; [reflexivity |].
  exists ["-m"; fmt_d (MemSize config);
          "-drive"; "format=raw,if=virtio,file=" ++ DiskPath config;
          "-smp"; "cpus=" ++ fmt_d (VCPUCount config);
          "-cpu"; "max";
          "-nographic";
          "-netdev";
          "tap,id=net0,ifname=" ++ tapName config ++ ",script=no,downscript=no";
          "-device"; "virtio-net-pci,netdev=net0,mac=" ++ vmMAC config;
          "-device"; "virtio-rng-pci";
          "-no-reboot";
          "-boot";
          "order=" ++ (if forcePXE then "nc" else "cn") ++ ",reboot-timeout=5000";
          "-smbios"; "type=1,uuid=" ++ NodeUUID config;
          "-machine";
          if EnableKVM config then MachineType config ++ ",accel=kvm"
          else MachineType config].
  eexists. split; [| split; [| split]]; [| reflexivity | reflexivity | reflexivity].
  destruct (read_error probe) as [e3 |]; simpl.
  - destruct (negb (KernelImagePath config =? "")%string); simpl;
      [| rewrite app_nil_r]; reflexivity.
  - replace (negb (0 <? partitions probe)%nat) with (partitions probe =? 0)%nat
      by (destruct (partitions probe); reflexivity).
    destruct (((partitions probe =? 0)%nat || negb (BootloaderEnabled config))
              && negb (KernelImagePath config =? "")%string); simpl;
      [| rewrite app_nil_r]; reflexivity.
Qed.

(** Case analysis on the errors of the calls of [withCNI]. *)
Ltac cni_cases o :=
  destruct o as [newns del_before add parse tap dump next del_after];
  cbv zeta; unfold withCNI, configure, release_network, release_ns; simpl;
  destruct newns, del_before, add, parse, tap, dump, next, del_after; simpl.

(** The calls before a given suffix of a list of calls. *)
Ltac calls_before :=
  match goal with
  | |- exists body, ?l = (body ++ ?s)%list /\ _ =>
      exists (firstn (length l - length s) l); split; reflexivity
  | |- exists body, ?l = (body ++ ?s)%list =>
      exists (firstn (length l - length s) l); reflexivity
  end.


(** X20. [withCNI] passes control to [f] at most once, and exactly when the
    namespace, the network, the parsing of the CNI result, the VM and tap
    pair and the IPAM record all succeeded; it then returns what [f] returns.
    In every other case it returns a non-nil error, so a failed set-up is
    never reported as success. *)
Theorem withCNI_next (o : cni_outcomes) :
  let ready :=
    match newns_error o, del_before_error o, add_error o,
          parse_error o, tap_error o, dump_error o with
    | None, None, None, None, None, None => true
    | _, _, _, _, _, _ => false
    end in
  count Next (fst (withCNI o)) = (if ready then 1 else 0)%nat /\
  (ready = true -> snd (withCNI o) = next_error o) /\
  (ready = false -> snd (withCNI o) <> None).
Proof.
  cni_cases o.
  all: repeat split; try reflexivity; try discriminate.
Qed.

End QemuFacts.

Section ProvisionerFacts.

Import qemu.

Variable IP : Type.
Variable IP_String : IP -> string.

(** The loop of [GenOptions] from name server [k] on. *)
Lemma nameserver_loop (ns : list IP) (m : nat) :
  forall k,
    (k + m = length ns)%nat ->
    fold_left (nameserver_step IP IP_String ns) (seq k m)
              (Some (map IP_String (firstn k ns) ++ repeat "" m)%list)
    = Some (map IP_String ns).
Proof.
  induction m as [| m IH]; intros k Hk.
  - simpl. rewrite app_nil_r, Nat.add_0_r in *. subst k.
    rewrite firstn_all. reflexivity.
  - destruct (nth_error ns k) as [ip |] eqn:Hnth.
    2:{ apply nth_error_None in Hnth. lia. }
    assert (Hfirst : firstn (S k) ns = (firstn k ns ++ [ip])%list).
    { clear - Hnth. revert k Hnth.
      induction ns as [| y rest IHl]; intros [| k] Hnth; simpl in *;
        try discriminate.
      - inversion Hnth. reflexivity.
      - rewrite (IHl k Hnth). reflexivity. }
    assert (Hlen : length (map IP_String (firstn k ns)) = k).
    { rewrite length_map, length_firstn. lia. }
    cbn [seq fold_left]. unfold nameserver_step at 2. rewrite Hnth.
    cbn [repeat].
    pose proof (store_app string (map IP_String (firstn k ns)) ("" :: repeat "" m)
                  0%nat (IP_String ip)) as Hstore.
    rewrite Hlen, Nat.add_0_r in Hstore. cbn [store] in Hstore.
    rewrite Hstore.
    specialize (IH (S k) ltac:(lia)).
    rewrite Hfirst, map_app in IH. simpl in IH.
    rewrite <- app_assoc in IH. simpl in IH.
    exact IH.
Qed.

(** X21. [GenOptions] never panics, whatever the name servers of the network
    request: the loop fills [nameservers] with their text, in range, and the
    options returned are the install disk "/dev/vda" and the four extra kernel
    arguments, the same for every request. *)
Theorem GenOptions_ignores_request (ns : list IP) :
  nameservers IP_String ns = Some (map IP_String ns) /\
  GenOptions IP_String ns
  = Some [WithInstallDisk "/dev/vda";
          WithInstallExtraKernelArgs
            ["console=ttyS0"; "reboot=k"; "panic=1"; "talos.platform=metal"]].
Proof.
  assert (Hns : nameservers IP_String ns = Some (map IP_String ns)).
  { unfold nameservers. rewrite repeat_length.
    apply (nameserver_loop ns (length ns) 0%nat). reflexivity. }
  split; [exact Hns |].
  unfold GenOptions. rewrite Hns. reflexivity.
Qed.

End ProvisionerFacts.
